(** * Workout flow state machine (odin_web design prototypes)

    A shallow embedding of the workout flow engine of the prototypes
    (the "Workout Flow State Machine" script; [design_exploration/v2/common.js]
    holds the same functions with other default constants and toast texts).

    The script is one closure over a mutable [state] object.  Here the
    object is the record [State]; the host environment the script talks to
    (the live [setInterval] handles and the toast region) is kept next to it
    in [World], and the functions of the script are computations of the
    monad [M] that thread the world and may let a [TypeError] escape.

    Numbers that the script only counts with are integers ([Z]); the two
    numbers read from the result form go through [Number(...)] and can be
    any JavaScript number, so they are kept as [JsNumber]. *)

From Stdlib Require Import QArith.
From Equations Require Import Equations.
From stdpp Require Import base numbers list gmap strings pretty.

Local Open Scope Z_scope.

(** ** JavaScript numbers read from the form *)

Inductive JsNumber :=
| NaN
| Infinity (negative : bool)
| Finite (q : Q).

(** [Number.isFinite] *)
Definition isFinite (n : JsNumber) : bool :=
  match n with Finite _ => true | _ => false end.

(** [a < b]; every comparison with [NaN] is false. *)
Definition js_lt (a b : JsNumber) : bool :=
  match a, b with
  | NaN, _ | _, NaN => false
  | Finite x, Finite y => negb (Qle_bool y x)
  | Finite _, Infinity neg => negb neg
  | Infinity neg, Finite _ => neg
  | Infinity n1, Infinity n2 => n1 && negb n2
  end.

(** [a <= b] *)
Definition js_le (a b : JsNumber) : bool :=
  match a, b with
  | NaN, _ | _, NaN => false
  | Finite x, Finite y => Qle_bool x y
  | Finite _, Infinity neg => negb neg
  | Infinity neg, Finite _ => neg
  | Infinity n1, Infinity n2 => n1 || negb n2
  end.

Definition js_zero : JsNumber := Finite (0 # 1).

(** [Number.isInteger]: a finite number without fractional part. *)
Definition isInteger (n : JsNumber) : bool :=
  match n with
  | Finite q => Pos.eqb (Qden (Qred q)) 1
  | _ => false
  end.

(** Embedding of the integers. *)
Definition of_Z (z : Z) : JsNumber := Finite (z # 1).

(** Comparisons in which the left operand is an array slot that may be
    [undefined] ([None]): [undefined] converts to [NaN] and the comparison
    is false. *)
Definition lt_undef (a : option Z) (b : Z) : bool :=
  match a with Some x => bool_decide (x < b) | None => false end.

Definition ge_undef (a : option Z) (b : Z) : bool :=
  match a with Some x => bool_decide (b ≤ x) | None => false end.

(** ** The workout definition and the configuration *)

Record Exercise := {
  name : string;
  targetReps : Z;
  setCount : Z;
  defaultWeight : Z;
  restSeconds : Z
}.

(** [config.workout] as a page supplies it; the [exercises] property may
    be absent. *)
Record WorkoutConfig := {
  workout_name : string;
  workout_exercises : option (list Exercise)
}.

Definition DEFAULT_WORKOUT : WorkoutConfig := {|
  workout_name := "Upper Body Circuit";
  workout_exercises := Some [
    {| name := "Lat Pulldown"; targetReps := 10; setCount := 4; defaultWeight := 90; restSeconds := 3 |};
    {| name := "Cable Row"; targetReps := 12; setCount := 4; defaultWeight := 80; restSeconds := 3 |};
    {| name := "Face Pull"; targetReps := 15; setCount := 3; defaultWeight := 40; restSeconds := 3 |};
    {| name := "Chest Press"; targetReps := 10; setCount := 4; defaultWeight := 110; restSeconds := 3 |};
    {| name := "Chest Fly"; targetReps := 12; setCount := 3; defaultWeight := 70; restSeconds := 3 |}
  ]
|}.

(** [window.DESIGN_CONFIG]: every property is optional. *)
Record DesignConfig := {
  cfg_workout : option WorkoutConfig;
  cfg_label_rank : option string;
  cfg_setPoints : option Z;
  cfg_setCurrency : option Z;
  cfg_exercisePoints : option Z;
  cfg_exerciseCurrency : option Z;
  cfg_rank : option Z;
  cfg_rankXp : option Z;
  cfg_streak : option Z;
  cfg_currency : option Z
}.

(** The empty configuration ([window.DESIGN_CONFIG] not set). *)
Definition no_config : DesignConfig := {|
  cfg_workout := None; cfg_label_rank := None;
  cfg_setPoints := None; cfg_setCurrency := None;
  cfg_exercisePoints := None; cfg_exerciseCurrency := None;
  cfg_rank := None; cfg_rankXp := None; cfg_streak := None; cfg_currency := None
|}.

Record Rewards := {
  setPoints : Z;
  setCurrency : Z;
  exercisePoints : Z;
  exerciseCurrency : Z
}.

(** The constants the closure captures once the script has read the
    configuration: [workout.exercises], [labels.rank], [rewards] and the
    values [config.initial] resolves to. *)
Record Env := {
  exercises : list Exercise;
  label_rank : string;
  rewards : Rewards;
  initial_rank : Z;
  initial_rankXp : Z;
  initial_streak : Z;
  initial_currency : Z
}.

(** ** Session state *)

Inductive Screen := main | circuit | progress | input | rest | complete.

Record SetEntry := {
  e_set : option Z;   (* [completedSets[idx] + 1]; [None] is NaN *)
  e_reps : JsNumber;
  e_weight : JsNumber;
  e_at : string
}.

Record CurrentInput := { reps : string; weight : string }.

Definition TimerId := positive.

Record State := {
  screen : Screen;
  startedAt : option Z;
  selectedExercise : option nat;
  completedSets : list Z;
  entries : list (list SetEntry);
  currentInput : CurrentInput;
  restRemaining : Z;
  restTimerStarted : bool;
  restTimerId : option TimerId;
  inputSubmitted : bool;
  rank : Z;
  rankXp : Z;
  streak : Z;
  currency : Z;
  sessionPoints : Z
}.

(** Field assignments [state.f = v]. *)
Definition set_screen v s := {|
  screen := v; startedAt := startedAt s; selectedExercise := selectedExercise s;
  completedSets := completedSets s; entries := entries s; currentInput := currentInput s;
  restRemaining := restRemaining s; restTimerStarted := restTimerStarted s;
  restTimerId := restTimerId s; inputSubmitted := inputSubmitted s; rank := rank s;
  rankXp := rankXp s; streak := streak s; currency := currency s;
  sessionPoints := sessionPoints s |}.
Definition set_startedAt v s := {|
  screen := screen s; startedAt := v; selectedExercise := selectedExercise s;
  completedSets := completedSets s; entries := entries s; currentInput := currentInput s;
  restRemaining := restRemaining s; restTimerStarted := restTimerStarted s;
  restTimerId := restTimerId s; inputSubmitted := inputSubmitted s; rank := rank s;
  rankXp := rankXp s; streak := streak s; currency := currency s;
  sessionPoints := sessionPoints s |}.
Definition set_selectedExercise v s := {|
  screen := screen s; startedAt := startedAt s; selectedExercise := v;
  completedSets := completedSets s; entries := entries s; currentInput := currentInput s;
  restRemaining := restRemaining s; restTimerStarted := restTimerStarted s;
  restTimerId := restTimerId s; inputSubmitted := inputSubmitted s; rank := rank s;
  rankXp := rankXp s; streak := streak s; currency := currency s;
  sessionPoints := sessionPoints s |}.
Definition set_completedSets v s := {|
  screen := screen s; startedAt := startedAt s; selectedExercise := selectedExercise s;
  completedSets := v; entries := entries s; currentInput := currentInput s;
  restRemaining := restRemaining s; restTimerStarted := restTimerStarted s;
  restTimerId := restTimerId s; inputSubmitted := inputSubmitted s; rank := rank s;
  rankXp := rankXp s; streak := streak s; currency := currency s;
  sessionPoints := sessionPoints s |}.
Definition set_entries v s := {|
  screen := screen s; startedAt := startedAt s; selectedExercise := selectedExercise s;
  completedSets := completedSets s; entries := v; currentInput := currentInput s;
  restRemaining := restRemaining s; restTimerStarted := restTimerStarted s;
  restTimerId := restTimerId s; inputSubmitted := inputSubmitted s; rank := rank s;
  rankXp := rankXp s; streak := streak s; currency := currency s;
  sessionPoints := sessionPoints s |}.
Definition set_currentInput v s := {|
  screen := screen s; startedAt := startedAt s; selectedExercise := selectedExercise s;
  completedSets := completedSets s; entries := entries s; currentInput := v;
  restRemaining := restRemaining s; restTimerStarted := restTimerStarted s;
  restTimerId := restTimerId s; inputSubmitted := inputSubmitted s; rank := rank s;
  rankXp := rankXp s; streak := streak s; currency := currency s;
  sessionPoints := sessionPoints s |}.
Definition set_restRemaining v s := {|
  screen := screen s; startedAt := startedAt s; selectedExercise := selectedExercise s;
  completedSets := completedSets s; entries := entries s; currentInput := currentInput s;
  restRemaining := v; restTimerStarted := restTimerStarted s;
  restTimerId := restTimerId s; inputSubmitted := inputSubmitted s; rank := rank s;
  rankXp := rankXp s; streak := streak s; currency := currency s;
  sessionPoints := sessionPoints s |}.
Definition set_restTimerStarted v s := {|
  screen := screen s; startedAt := startedAt s; selectedExercise := selectedExercise s;
  completedSets := completedSets s; entries := entries s; currentInput := currentInput s;
  restRemaining := restRemaining s; restTimerStarted := v;
  restTimerId := restTimerId s; inputSubmitted := inputSubmitted s; rank := rank s;
  rankXp := rankXp s; streak := streak s; currency := currency s;
  sessionPoints := sessionPoints s |}.
Definition set_restTimerId v s := {|
  screen := screen s; startedAt := startedAt s; selectedExercise := selectedExercise s;
  completedSets := completedSets s; entries := entries s; currentInput := currentInput s;
  restRemaining := restRemaining s; restTimerStarted := restTimerStarted s;
  restTimerId := v; inputSubmitted := inputSubmitted s; rank := rank s;
  rankXp := rankXp s; streak := streak s; currency := currency s;
  sessionPoints := sessionPoints s |}.
Definition set_inputSubmitted v s := {|
  screen := screen s; startedAt := startedAt s; selectedExercise := selectedExercise s;
  completedSets := completedSets s; entries := entries s; currentInput := currentInput s;
  restRemaining := restRemaining s; restTimerStarted := restTimerStarted s;
  restTimerId := restTimerId s; inputSubmitted := v; rank := rank s;
  rankXp := rankXp s; streak := streak s; currency := currency s;
  sessionPoints := sessionPoints s |}.
Definition set_rank v s := {|
  screen := screen s; startedAt := startedAt s; selectedExercise := selectedExercise s;
  completedSets := completedSets s; entries := entries s; currentInput := currentInput s;
  restRemaining := restRemaining s; restTimerStarted := restTimerStarted s;
  restTimerId := restTimerId s; inputSubmitted := inputSubmitted s; rank := v;
  rankXp := rankXp s; streak := streak s; currency := currency s;
  sessionPoints := sessionPoints s |}.
Definition set_rankXp v s := {|
  screen := screen s; startedAt := startedAt s; selectedExercise := selectedExercise s;
  completedSets := completedSets s; entries := entries s; currentInput := currentInput s;
  restRemaining := restRemaining s; restTimerStarted := restTimerStarted s;
  restTimerId := restTimerId s; inputSubmitted := inputSubmitted s; rank := rank s;
  rankXp := v; streak := streak s; currency := currency s;
  sessionPoints := sessionPoints s |}.
Definition set_streak v s := {|
  screen := screen s; startedAt := startedAt s; selectedExercise := selectedExercise s;
  completedSets := completedSets s; entries := entries s; currentInput := currentInput s;
  restRemaining := restRemaining s; restTimerStarted := restTimerStarted s;
  restTimerId := restTimerId s; inputSubmitted := inputSubmitted s; rank := rank s;
  rankXp := rankXp s; streak := v; currency := currency s;
  sessionPoints := sessionPoints s |}.
Definition set_currency v s := {|
  screen := screen s; startedAt := startedAt s; selectedExercise := selectedExercise s;
  completedSets := completedSets s; entries := entries s; currentInput := currentInput s;
  restRemaining := restRemaining s; restTimerStarted := restTimerStarted s;
  restTimerId := restTimerId s; inputSubmitted := inputSubmitted s; rank := rank s;
  rankXp := rankXp s; streak := streak s; currency := v;
  sessionPoints := sessionPoints s |}.
Definition set_sessionPoints v s := {|
  screen := screen s; startedAt := startedAt s; selectedExercise := selectedExercise s;
  completedSets := completedSets s; entries := entries s; currentInput := currentInput s;
  restRemaining := restRemaining s; restTimerStarted := restTimerStarted s;
  restTimerId := restTimerId s; inputSubmitted := inputSubmitted s; rank := rank s;
  rankXp := rankXp s; streak := streak s; currency := currency s;
  sessionPoints := v |}.

(** ** The host environment and the monad of the script *)

(** [intervals] are the handles of the rest countdowns that [setInterval]
    has scheduled and [clearInterval] has not cancelled; every one of them
    runs the same callback (the arrow function of [beginRestTimer]).
    [nextId] is the handle the next [setInterval] returns; handles are
    positive, hence truthy.  [toasts] is what [showToast] has put on the
    page, oldest first.  The page's other interval (the elapsed-time
    refresh) only calls [render] and is left out. *)
Record World := {
  state : State;
  intervals : gset TimerId;
  nextId : TimerId;
  toasts : list string
}.

Definition set_state v w :=
  {| state := v; intervals := intervals w; nextId := nextId w; toasts := toasts w |}.

(** A computation runs on the world and either returns a value or lets a
    [TypeError] escape ([None]); what it wrote before stays written. *)
Definition M (A : Type) : Type := World → option A * World.

Definition ret {A} (a : A) : M A := λ w, (Some a, w).

Definition bind {A B} (c : M A) (k : A → M B) : M B :=
  λ w, match c w with
       | (Some a, w') => k a w'
       | (None, w') => (None, w')
       end.

Definition throwTypeError {A} : M A := λ w, (None, w).

Definition get : M State := λ w, (Some (state w), w).

(** [state.f = v] through one of the assignments above. *)
Definition assign (f : State → State) : M unit :=
  λ w, (Some tt, set_state (f (state w)) w).

(** Reading a property of a value that may be [undefined]. *)
Definition deref {A} (o : option A) : M A :=
  match o with Some a => ret a | None => throwTypeError end.

Declare Scope js_scope.
Delimit Scope js_scope with js.
Notation "'let*' x ':=' c 'in' k" := (bind c (λ x, k))
  (at level 10, x name, c at level 100, k at level 200) : js_scope.
Notation "c ';;' k" := (bind c (λ _, k))
  (at level 100, k at level 200, right associativity) : js_scope.
Notation "'when' b 'then' c" := (if b then c else ret tt)
  (at level 10, b at level 100, c at level 200) : js_scope.

(** The world an event handler leaves behind. *)
Definition exec {A} (c : M A) (w : World) : World := snd (c w).

(** Truthiness of [state.startedAt] ([null] and [0] are falsy). *)
Definition truthy_time (t : option Z) : bool :=
  match t with Some x => negb (x =? 0) | None => false end.

Definition showToast (message : string) : M unit :=
  λ w, (Some tt, {| state := state w; intervals := intervals w;
                    nextId := nextId w; toasts := toasts w ++ [message] |}).

Definition setInterval : M TimerId :=
  λ w, (Some (nextId w),
        {| state := state w; intervals := intervals w ∪ {[ nextId w ]};
           nextId := Pos.succ (nextId w); toasts := toasts w |}).

Definition clearInterval (id : TimerId) : M unit :=
  λ w, (Some tt, {| state := state w; intervals := intervals w ∖ {[ id ]};
                    nextId := nextId w; toasts := toasts w |}).

(** [render()] rebuilds the page from [state] and changes nothing here. *)
Definition render : M unit := ret tt.

(** ** The functions of the script *)

Section Engine.

Context (env : Env).

Local Open Scope js_scope.

(** [workout.exercises[index]], [undefined] out of range. *)
Definition exerciseByIndex (index : nat) : option Exercise :=
  exercises env !! index.

Definition lockedExerciseIndex (s : State) : option nat :=
  match selectedExercise s with
  | None => None
  | Some sel =>
      match exerciseByIndex sel with
      | None => None
      | Some exercise =>
          if lt_undef (completedSets s !! sel) (setCount exercise)
          then Some sel else None
      end
  end.

(** [workout.exercises.every((ex, idx) => state.completedSets[idx] >= ex.setCount)] *)
Definition allExercisesComplete (s : State) : bool :=
  forallb (λ p, ge_undef (completedSets s !! p.1) (setCount p.2))
          (imap pair (exercises env)).

(** The [while (state.rankXp >= 100)] loop of [addRewards]. *)
Equations? levelUp (w : World) : World by wf (Z.to_nat (rankXp (state w))) lt :=
  levelUp w with decide (100 ≤ rankXp (state w)) => {
    | left _ =>
        levelUp
          (exec (assign (λ s, set_rankXp (rankXp s - 100) s);;
                 assign (λ s, set_rank (rank s + 1) s);;
                 let* s := get in
                 showToast ("Level up! Now " +:+ label_rank env +:+ " " +:+ pretty (rank s)))
                w);
    | right _ => w }.
Proof. cbn. lia. Qed.

Definition addRewards (points currency_ : Z) : M unit :=
  assign (λ s, set_sessionPoints (sessionPoints s + points) s);;
  assign (λ s, set_rankXp (rankXp s + points) s);;
  assign (λ s, set_currency (currency s + currency_) s);;
  λ w, (Some tt, levelUp w).

(** The toast of [notifyTimerDone]; the desktop notification next to it
    is best effort and touches nothing of the script. *)
Definition notifyTimerDone : M unit :=
  let* s := get in
  let exercise := match selectedExercise s with
                  | Some idx => exerciseByIndex idx
                  | None => None
                  end in
  let body := match exercise with
              | Some ex => name ex +:+ " rest complete"
              | None => "Rest complete"
              end in
  showToast body.

Definition stopRestTimer : M unit :=
  let* s := get in
  match restTimerId s with
  | Some id =>
      clearInterval id;;
      assign (set_restTimerId None)
  | None => ret tt
  end.

Definition advanceAfterSet : M unit :=
  let* s := get in
  match selectedExercise s with
  | None => ret tt
  | Some idx =>
      let* exercise := deref (exerciseByIndex idx) in
      (when lt_undef (completedSets s !! idx) (setCount exercise) then
         assign (λ s, set_completedSets
                        (alter (λ n, n + 1) idx (completedSets s)) s));;
      assign (set_restRemaining 0);;
      assign (set_restTimerStarted false);;
      assign (set_inputSubmitted false);;
      let* s := get in
      (if ge_undef (completedSets s !! idx) (setCount exercise) then
         addRewards (exercisePoints (rewards env)) (exerciseCurrency (rewards env));;
         assign (set_selectedExercise None);;
         assign (set_currentInput {| reps := ""; weight := "" |});;
         let* s := get in
         assign (set_screen (if allExercisesComplete s then complete else circuit))
       else
         assign (set_screen progress));;
      render
  end.

Definition onRestTimerFinished : M unit :=
  stopRestTimer;;
  notifyTimerDone;;
  let* s := get in
  if inputSubmitted s then advanceAfterSet
  else
    assign (set_screen input);;
    render;;
    showToast "Timer ended. Submit set data to continue.".

(** The callback [beginRestTimer] hands to [setInterval]. *)
Definition restTick : M unit :=
  let* s := get in
  if bool_decide (0 < restRemaining s) then
    assign (λ s, set_restRemaining (restRemaining s - 1) s);;
    render;;
    let* s := get in
    when bool_decide (restRemaining s = 0) then onRestTimerFinished
  else onRestTimerFinished.

Definition beginRestTimer : M unit :=
  stopRestTimer;;
  let* id := setInterval in
  assign (set_restTimerId (Some id)).

(** [now] is what [Date.now()] returns. *)
Definition startWorkout (now : Z) : M unit :=
  let* s := get in
  (when negb (truthy_time (startedAt s)) then
     assign (set_startedAt (Some now)));;
  let* s := get in
  assign (set_screen (if allExercisesComplete s then complete else circuit));;
  render.

Definition chooseExercise (index : nat) : M unit :=
  let* s := get in
  let select :=
    match exerciseByIndex index with
    | None => ret tt
    | Some exercise =>
        if ge_undef (completedSets s !! index) (setCount exercise) then
          showToast (name exercise +:+ " complete")
        else
          assign (set_selectedExercise (Some index));;
          assign (set_restRemaining 0);;
          assign (set_restTimerStarted false);;
          assign (set_inputSubmitted false);;
          assign (set_currentInput
                    {| reps := pretty (targetReps exercise);
                       weight := pretty (defaultWeight exercise) |});;
          assign (set_screen progress);;
          render
    end in
  match lockedExerciseIndex s with
  | Some lockedIdx =>
      if bool_decide (lockedIdx ≠ index) then
        let* locked := deref (exerciseByIndex lockedIdx) in
        showToast ("Finish " +:+ name locked +:+ " first")
      else select
  | None => select
  end.

Definition enterResultData : M unit :=
  let* s := get in
  match selectedExercise s with
  | None => showToast "Select an exercise first"
  | Some idx =>
      let exercise := exerciseByIndex idx in
      (when negb (restTimerStarted s) then
         let* ex := deref exercise in
         assign (set_restRemaining (restSeconds ex));;
         assign (set_restTimerStarted true);;
         beginRestTimer);;
      assign (set_screen input);;
      render
  end.

(** [submitSet(form)]: [reps] and [weight] are [Number(form.reps.value)]
    and [Number(form.weight.value)], [at_] is what
    [new Date().toLocaleTimeString()] returns. *)
Definition submitSet (reps weight : JsNumber) (at_ : string) : M unit :=
  let* s := get in
  match selectedExercise s with
  | None => ret tt
  | Some idx =>
      if inputSubmitted s then showToast "Set already submitted"
      else if negb (isFinite reps) || js_le reps js_zero then
        showToast "Enter valid rep count"
      else if negb (isFinite weight) || js_lt weight js_zero then
        showToast "Enter valid weight"
      else
        let setNumber := (λ n, n + 1) <$> completedSets s !! idx in
        let* _ := deref (entries s !! idx) in
        assign (λ s, set_entries
                       (alter (λ es, es ++ [ {| e_set := setNumber; e_reps := reps;
                                                e_weight := weight; e_at := at_ |} ])
                              idx (entries s)) s);;
        addRewards (setPoints (rewards env)) (setCurrency (rewards env));;
        assign (set_inputSubmitted true);;
        let* s := get in
        (when negb (restTimerStarted s) then
           let* exercise := deref (exerciseByIndex idx) in
           assign (set_restRemaining (restSeconds exercise));;
           assign (set_restTimerStarted true);;
           beginRestTimer);;
        let* s := get in
        if bool_decide (0 < restRemaining s) then
          assign (set_screen rest);;
          render
        else advanceAfterSet
  end.

Definition restartSession : M unit :=
  stopRestTimer;;
  assign (set_screen main);;
  assign (set_startedAt None);;
  assign (set_selectedExercise None);;
  assign (set_completedSets (replicate (length (exercises env)) 0));;
  assign (set_entries (replicate (length (exercises env)) []));;
  assign (set_currentInput {| reps := ""; weight := "" |});;
  assign (set_restRemaining 0);;
  assign (set_restTimerStarted false);;
  assign (set_inputSubmitted false);;
  assign (set_sessionPoints 0);;
  assign (set_rank (initial_rank env));;
  assign (set_rankXp (initial_rankXp env));;
  assign (set_streak (initial_streak env));;
  assign (set_currency (initial_currency env));;
  render.

(** The [state] object literal the script starts with. *)
Definition initial_state : State := {|
  screen := main;
  startedAt := None;
  selectedExercise := None;
  completedSets := replicate (length (exercises env)) 0;
  entries := replicate (length (exercises env)) [];
  currentInput := {| reps := ""; weight := "" |};
  restRemaining := 0;
  restTimerStarted := false;
  restTimerId := None;
  inputSubmitted := false;
  rank := initial_rank env;
  rankXp := initial_rankXp env;
  streak := initial_streak env;
  currency := initial_currency env;
  sessionPoints := 0
|}.

(** The page right after the script has run: no countdown scheduled, no
    toast shown. *)
Definition initial_world : World :=
  {| state := initial_state; intervals := ∅; nextId := 1%positive; toasts := [] |}.

(** ** Events *)

(** What the page can deliver to the script: the clicks and the form
    submission the two listeners dispatch on, and the firing of a
    scheduled countdown. *)
Inductive Event :=
| StartWorkout (now : Z)
| SelectExercise (index : nat)
| EnterResult
| SubmitResult (reps weight : JsNumber) (at_ : string)
| Restart
| TimerFires (id : TimerId).

Definition handler (ev : Event) : M unit :=
  match ev with
  | StartWorkout now => startWorkout now
  | SelectExercise index => chooseExercise index
  | EnterResult => enterResultData
  | SubmitResult reps weight at_ => submitSet reps weight at_
  | Restart => restartSession
  | TimerFires _ => restTick
  end.

(** A countdown fires only while its handle is scheduled; the calls of
    the operations are always possible. *)
Definition enabled (w : World) (ev : Event) : bool :=
  match ev with
  | TimerFires id => bool_decide (id ∈ intervals w)
  | _ => true
  end.

Inductive step : World → World → Prop :=
| step_event w ev : enabled w ev = true → step w (exec (handler ev) w).

Inductive reachable : World → Prop :=
| reachable_initial : reachable initial_world
| reachable_step w w' : reachable w → step w w' → reachable w'.

(** Running a list of events from a world; [None] when one of them is
    not enabled. *)
Fixpoint run (evs : list Event) (w : World) : option World :=
  match evs with
  | [] => Some w
  | ev :: evs' =>
      if enabled w ev then run evs' (exec (handler ev) w) else None
  end.

End Engine.

(** ** Construction *)

(** The constants of the closure for the exercise list [exs]: [labels.rank],
    [rewards] and the initial counters, each with the default the script
    gives it when the configuration leaves it out. *)
Definition resolve_with (exs : list Exercise) (config : DesignConfig) : Env :=
  {| exercises := exs;
     label_rank := default "Level" (cfg_label_rank config);
     rewards := {| setPoints := default 10 (cfg_setPoints config);
                   setCurrency := default 5 (cfg_setCurrency config);
                   exercisePoints := default 25 (cfg_exercisePoints config);
                   exerciseCurrency := default 12 (cfg_exerciseCurrency config) |};
     initial_rank := default 3 (cfg_rank config);
     initial_rankXp := default 45 (cfg_rankXp config);
     initial_streak := default 7 (cfg_streak config);
     initial_currency := default 250 (cfg_currency config) |}.

(** What the top of the script computes from [window.DESIGN_CONFIG]:
    [config.workout || DEFAULT_WORKOUT] and the constants above.
    [Array(workout.exercises.length)] reads [length] of the exercise list
    and is the one place that can fail: a workout object without
    [exercises] makes the script stop with a [TypeError] (the v2 copy reads
    [baseWorkout.exercises || []] and takes the empty list then). *)
Definition resolve (config : DesignConfig) : option Env :=
  let workout := default DEFAULT_WORKOUT (cfg_workout config) in
  exs ← workout_exercises workout;
  Some (resolve_with exs config).

(** The script run to its end: the closure and the first page. *)
Definition construct (config : DesignConfig) : option (Env * World) :=
  env ← resolve config;
  Some (env, initial_world env).

(** The engine of a page without configuration. *)
Definition default_env : Env :=
  resolve_with (default [] (workout_exercises DEFAULT_WORKOUT)) no_config.

(** * What the properties speak of *)

Section Vocabulary.

Context (env : Env).

(** The configuration constraint of the data model: no exercise asks
    for a negative number of sets. *)
Definition setCounts_nonneg : Prop :=
  Forall (λ ex, 0 ≤ setCount ex) (exercises env).

(** [completedSets] has one slot per exercise and no slot is above the
    exercise's [setCount]. *)
Definition sets_bounded (s : State) : Prop :=
  length (completedSets s) = length (exercises env) ∧
  ∀ i c ex, completedSets s !! i = Some c → exercises env !! i = Some ex →
            c ≤ setCount ex.

(** The script keeps at most the countdown whose handle it holds in
    [restTimerId]. *)
Definition timers_owned (w : World) : Prop :=
  intervals w = match restTimerId (state w) with
                | Some id => {[ id ]}
                | None => ∅
                end.

(** The entry [submitSet] pushes for set [setNumber]. *)
Definition entry (setNumber : option Z) (reps weight : JsNumber) (at_ : string) : SetEntry :=
  {| e_set := setNumber; e_reps := reps; e_weight := weight; e_at := at_ |}.

(** Exercise [i] is selected and its current set has been submitted. *)
Definition submitted_here (s : State) (i : nat) : bool :=
  inputSubmitted s && bool_decide (selectedExercise s = Some i).

(** [entries[i].length] is [completedSets[i]], plus one for the set that
    is submitted and waits for its rest. *)
Definition entries_match (s : State) : Prop :=
  ∀ i es c,
    entries s !! i = Some es → completedSets s !! i = Some c →
    Z.of_nat (length es) = c + (if submitted_here s i then 1 else 0).

(** The selected exercise exists and has sets left. *)
Definition selection_open (s : State) : Prop :=
  ∀ idx, selectedExercise s = Some idx →
         ∃ ex c, exerciseByIndex env idx = Some ex ∧
                 completedSets s !! idx = Some c ∧ c < setCount ex.

Definition log_consistent (s : State) : Prop :=
  length (completedSets s) = length (exercises env) ∧
  length (entries s) = length (exercises env) ∧
  selection_open s ∧
  (inputSubmitted s = true → is_Some (selectedExercise s)) ∧
  entries_match s.

(** A session in which no exercise is selected while a submitted set
    waits for its rest. *)
Definition orderly (w : World) (ev : Event) : bool :=
  match ev with
  | SelectExercise _ => negb (inputSubmitted (state w))
  | _ => true
  end.

Inductive reachable_orderly : World → Prop :=
| orderly_initial : reachable_orderly (initial_world env)
| orderly_step w ev :
    reachable_orderly w → enabled w ev = true → orderly w ev = true →
    reachable_orderly (exec (handler env ev) w).

End Vocabulary.

(** ** Pages and sessions used as examples *)

(** The default page after the first set of the first exercise has been
    entered, submitted and rested for. *)
Definition first_set_done : World :=
  default (initial_world default_env)
    (run default_env
       [StartWorkout 1700000000000; SelectExercise 0%nat; EnterResult;
        SubmitResult (of_Z 10) (of_Z 90) "10:00:00";
        TimerFires 1%positive; TimerFires 1%positive; TimerFires 1%positive]
       (initial_world default_env)).

(** The default page with the first exercise selected and the result form
    open: the countdown with handle 1 is running at 3 seconds. *)
Definition result_form_open : World :=
  default (initial_world default_env)
    (run default_env
       [StartWorkout 1700000000000; SelectExercise 0%nat; EnterResult]
       (initial_world default_env)).

(** What the two [if]s of [submitSet] let through: a finite [reps] above
    zero and a finite [weight] not below zero. *)
Definition valid_submission (reps weight : JsNumber) : bool :=
  negb (negb (isFinite reps) || js_le reps js_zero) &&
  negb (negb (isFinite weight) || js_lt weight js_zero).

(** A page with a first exercise of one set and no rest, and a second
    exercise with three seconds of rest. *)
Definition no_rest_env : Env :=
  resolve_with
    [ {| name := "Plank"; targetReps := 1; setCount := 1; defaultWeight := 0; restSeconds := 0 |};
      {| name := "Cable Row"; targetReps := 12; setCount := 4; defaultWeight := 80; restSeconds := 3 |} ]
    no_config.

(** There the first exercise is entered and submitted, which completes it
    at once and shows the circuit again while its countdown is still
    scheduled. *)
Definition back_on_circuit : World :=
  default (initial_world no_rest_env)
    (run no_rest_env
       [StartWorkout 1700000000000; SelectExercise 0%nat; EnterResult;
        SubmitResult (of_Z 1) (of_Z 0) "10:00:00"]
       (initial_world no_rest_env)).

(** A page whose workout has no exercises. *)
Definition empty_workout_config : DesignConfig := {|
  cfg_workout := Some {| workout_name := "Empty"; workout_exercises := Some [] |};
  cfg_label_rank := None;
  cfg_setPoints := None; cfg_setCurrency := None;
  cfg_exercisePoints := None; cfg_exerciseCurrency := None;
  cfg_rank := None; cfg_rankXp := None; cfg_streak := None; cfg_currency := None
|}.

(** The default page after the first set was submitted and, while it
    waited for its rest, the same exercise was selected again. *)
Definition reselected_after_submit : World :=
  default (initial_world default_env)
    (run default_env
       [StartWorkout 1700000000000; SelectExercise 0%nat; EnterResult;
        SubmitResult (of_Z 10) (of_Z 90) "10:00:00"; SelectExercise 0%nat]
       (initial_world default_env)).

(** The events after which the first set of the default page is submitted
    and resting. *)
Definition first_set_resting : list Event :=
  [StartWorkout 1700000000000; SelectExercise 0%nat; EnterResult;
   SubmitResult (of_Z 10) (of_Z 90) "10:00:00"; TimerFires 1%positive].

(** * The rest of the script *)

(** ** Times on the page *)

(** [s.padStart(targetLength, "0")] *)
Definition padStart (targetLength : nat) (s : string) : string :=
  String.concat "" (replicate (targetLength - String.length s) "0") +:+ s.

(** [formatTime(totalSeconds)] on the whole seconds its callers pass
    ([elapsedSeconds()] and [state.restRemaining]); [Math.floor] of a whole
    number is the number, [/] and [mod] on [Z] round like [Math.floor] and
    [%] do on the non-negative [safe]. *)
Definition formatTime (totalSeconds : Z) : string :=
  let safe := Z.max 0 totalSeconds in
  let minutes := safe `div` 60 in
  let seconds := safe `mod` 60 in
  padStart 2 (pretty minutes) +:+ ":" +:+ padStart 2 (pretty seconds).

(** [elapsedSeconds()], [now] being [Date.now()]. *)
Definition elapsedSeconds (now : Z) (s : State) : Z :=
  if negb (truthy_time (startedAt s)) then 0
  else (now - default 0 (startedAt s)) `div` 1000.

Section Display.

Context (env : Env).

(** [objectiveText()]; [objectiveDone] is [labels.objectiveDone].  [None]
    is the [TypeError] of reading [name] of a missing exercise, and a
    missing [completedSets] slot prints as [NaN]. *)
Definition objectiveText (objectiveDone : string) (s : State) : option string :=
  if allExercisesComplete env s then Some objectiveDone
  else
    match lockedExerciseIndex env s with
    | Some lockedIdx =>
        exercise ← exerciseByIndex env lockedIdx;
        let doneSets := completedSets s !! lockedIdx in
        Some (name exercise +:+ ": Set " +:+
              match doneSets with Some n => pretty (n + 1) | None => "NaN" end +:+
              " of " +:+ pretty (setCount exercise))
    | None => Some "Select an exercise to begin"
    end.

(** *** What the rendered page lets the user do

    The render functions build HTML; of it only the elements that carry a
    [data-action] reach the script again.  A page is kept as the screen
    it shows and, for the circuit, the exercise tiles with their
    [disabled] attribute.  The "Notifications" button of the header is on
    every page and does not touch [state]; it is left out. *)

Record Tile := { tile_index : nat; tile_disabled : bool }.

Inductive Page :=
| MainPage                        (* button [start-workout] *)
| CircuitPage (tiles : list Tile) (* one [select-exercise] button per exercise *)
| ProgressPage                    (* button [enter-result] *)
| InputPage                       (* form [submit-result] *)
| RestPage                        (* nothing to press *)
| CompletePage.                   (* button [restart] *)

Definition renderCircuit (s : State) : Page :=
  let lockedIdx := lockedExerciseIndex env s in
  CircuitPage
    (imap (λ idx exercise,
             let isDone := ge_undef (completedSets s !! idx) (setCount exercise) in
             let lockOut := match lockedIdx with
                            | Some l => bool_decide (l ≠ idx)
                            | None => false
                            end in
             {| tile_index := idx; tile_disabled := isDone || lockOut |})
          (exercises env)).

(** [renderProgress] and [renderInput] fall back to the circuit when no
    exercise is selected. *)
Definition renderProgress (s : State) : Page :=
  match selectedExercise s with
  | Some idx => match exerciseByIndex env idx with
                | Some _ => ProgressPage
                | None => renderCircuit s
                end
  | None => renderCircuit s
  end.

Definition renderInput (s : State) : Page :=
  match selectedExercise s with
  | Some idx => match exerciseByIndex env idx with
                | Some _ => InputPage
                | None => renderCircuit s
                end
  | None => renderCircuit s
  end.

Definition renderScreen (s : State) : Page :=
  match screen s with
  | main => MainPage
  | circuit => renderCircuit s
  | progress => renderProgress s
  | input => renderInput s
  | rest => RestPage
  | complete => CompletePage
  end.

(** The events the page can deliver: a press on a button that is rendered
    and not disabled, a submission of the rendered form, or the firing of
    a scheduled countdown.  Every handler that changes [state] ends in
    [render()], so between two events the page is [renderScreen] of the
    current state.  The notifications button of the header is always
    there; [requestNotifications] leaves [state] alone and is no event
    here. *)
Definition offers (w : World) (ev : Event) : bool :=
  match ev, renderScreen (state w) with
  | StartWorkout _, MainPage => true
  | SelectExercise index, CircuitPage tiles =>
      existsb (λ t, bool_decide (tile_index t = index) && negb (tile_disabled t)) tiles
  | EnterResult, ProgressPage => true
  | SubmitResult _ _ _, InputPage => true
  | Restart, CompletePage => true
  | TimerFires id, _ => bool_decide (id ∈ intervals w)
  | _, _ => false
  end.

(** The worlds a user reaches through the page. *)
Inductive reachable_on_page : World → Prop :=
| on_page_initial : reachable_on_page (initial_world env)
| on_page_step w ev :
    reachable_on_page w → offers w ev = true →
    reachable_on_page (exec (handler env ev) w).

(** ** More vocabulary *)

(** [allExercisesComplete] said with lists: every exercise has a slot at
    or above its [setCount]. *)
Definition all_complete (s : State) : Prop :=
  ∀ i ex, exercises env !! i = Some ex →
          ∃ c, completedSets s !! i = Some c ∧ setCount ex ≤ c.

(** The rest fields as the handlers keep them. *)
Definition rest_consistent (s : State) : Prop :=
  (restTimerStarted s = false → restRemaining s = 0) ∧
  (0 < restRemaining s → is_Some (restTimerId s) ∧ restTimerStarted s = true) ∧
  (screen s = rest →
   0 < restRemaining s ∧ inputSubmitted s = true ∧ is_Some (selectedExercise s)).

(** The selection as the handlers keep it: one slot per exercise, the
    selected exercise open, a submitted set only with a selection. *)
Definition selection_sound (s : State) : Prop :=
  length (completedSets s) = length (exercises env) ∧
  length (entries s) = length (exercises env) ∧
  selection_open env s ∧
  (inputSubmitted s = true → is_Some (selectedExercise s)).

(** Every exercise asks for at least one set and no rest is negative. *)
Definition workout_valid : Prop :=
  Forall (λ ex, 0 < setCount ex ∧ 0 ≤ restSeconds ex) (exercises env).

(** The number of entries of a session and the number of its finished
    exercises. *)
Definition total_entries (s : State) : Z :=
  Z.of_nat (sum_list (length <$> entries s)).

Definition finished_exercises (s : State) : Z :=
  Z.of_nat (length (filter (λ p, setCount p.2 ≤ p.1)
                           (zip (completedSets s) (exercises env)))).

(** What the counters add up to: the rank and its progress hold the
    initial values plus the points of the session, the streak is the
    configured one. *)
Definition counters_account (s : State) : Prop :=
  100 * rank s + rankXp s
  = 100 * initial_rank env + initial_rankXp env + sessionPoints s ∧
  streak s = initial_streak env.

(** The remaining rest is within the rest of the selected exercise, and
    there is none without a selection. *)
Definition rest_bounded (s : State) : Prop :=
  match selectedExercise s with
  | Some idx => ∃ ex, exerciseByIndex env idx = Some ex ∧
                      0 ≤ restRemaining s ≤ restSeconds ex
  | None => restRemaining s = 0
  end.

(** The points and the currency are what the logged sets and the finished
    exercises have earned. *)
Definition points_earned (s : State) : Prop :=
  sessionPoints s
  = setPoints (rewards env) * total_entries s
    + exercisePoints (rewards env) * finished_exercises s ∧
  currency s
  = initial_currency env
    + setCurrency (rewards env) * total_entries s
    + exerciseCurrency (rewards env) * finished_exercises s.

(** What holds of a session driven through the page: a submitted set
    waits on the rest screen, and the main, circuit and completion
    screens show with nothing selected. *)
Definition page_consistent (s : State) : Prop :=
  (inputSubmitted s = true → screen s = rest) ∧
  (screen s = main ∨ screen s = circuit ∨ screen s = complete →
   selectedExercise s = None).

(** Every exercise asks for at least one set and rests for at least a
    second. *)
Definition workout_live : Prop :=
  Forall (λ ex, 0 < setCount ex ∧ 0 < restSeconds ex) (exercises env).

(** What keeps the page going: a scheduled countdown has time left, and
    the progress and input screens show with an exercise selected. *)
Definition page_live (s : State) : Prop :=
  (is_Some (restTimerId s) → 0 < restRemaining s) ∧
  (screen s = progress ∨ screen s = input → is_Some (selectedExercise s)).

(** Using the page: a list of events delivered one after the other;
    [None] when the page does not offer one of them. *)
Fixpoint browse (evs : list Event) (w : World) : option World :=
  match evs with
  | [] => Some w
  | ev :: evs => if offers w ev then browse evs (exec (handler env ev) w) else None
  end.

End Display.

(** ** The workout of the v2 copy

    [design_exploration/v2/common.js] builds its workout as
    [(baseWorkout.exercises || []).map(...)], replacing every
    [restSeconds] by [config.globalRestSeconds] when that is a finite
    number ([Some]). *)
Definition withGlobalRest (globalRestSeconds : option Z) (exs : option (list Exercise))
  : list Exercise :=
  (λ exercise,
     {| name := name exercise; targetReps := targetReps exercise;
        setCount := setCount exercise; defaultWeight := defaultWeight exercise;
        restSeconds := default (restSeconds exercise) globalRestSeconds |})
  <$> default [] exs.

(** ** A page without rest

    One exercise of one set that asks for no rest, selected, entered and
    submitted; the countdown that [enterResultData] scheduled fires after
    the session is complete. *)
Definition one_set_env : Env :=
  resolve_with
    [ {| name := "Plank"; targetReps := 1; setCount := 1; defaultWeight := 0; restSeconds := 0 |} ]
    no_config.

Definition late_countdown : list Event :=
  [StartWorkout 1700000000000; SelectExercise 0%nat; EnterResult;
   SubmitResult (of_Z 1) (of_Z 0) "10:00:00"; TimerFires 1%positive].

Definition after_late_countdown : World :=
  default (initial_world one_set_env)
    (browse one_set_env late_countdown (initial_world one_set_env)).

(** The same page with the session complete, before the countdown fires. *)
Definition one_set_session : list Event :=
  [StartWorkout 1700000000000; SelectExercise 0%nat; EnterResult;
   SubmitResult (of_Z 1) (of_Z 0) "10:00:00"].

(** The default page on the rest screen of its first set, two seconds
    left. *)
Definition first_set_on_rest : World :=
  default (initial_world default_env)
    (browse default_env first_set_resting (initial_world default_env)).

(** * Properties *)

(** ** The level-up loop *)

Section Rewards.

Context (env : Env).

(** The loop writes [rank] and [rankXp], shows toasts, and touches
    nothing else. *)
Lemma levelUp_frame (w : World) :
  ∃ r x ts,
    levelUp env w =
      {| state := set_rank r (set_rankXp x (state w));
         intervals := intervals w; nextId := nextId w;
         toasts := toasts w ++ ts |}.
Proof.
  funelim (levelUp env w).
  - destruct H as (r & x & ts & ->). cbn.
    eexists r, x, (_ :: ts). rewrite <- app_assoc. reflexivity.
  - exists (rank (state w)), (rankXp (state w)), [].
    rewrite app_nil_r. destruct w as [[] ? ? ?]. reflexivity.
Qed.

(** From a non-negative [rankXp] the loop leaves the remainder modulo 100
    and adds the quotient to [rank]. *)
Lemma levelUp_divmod (w : World) :
  0 ≤ rankXp (state w) →
  rankXp (state (levelUp env w)) = rankXp (state w) mod 100 ∧
  rank (state (levelUp env w)) = rank (state w) + rankXp (state w) / 100.
Proof.
  funelim (levelUp env w); intros Hnn.
  - cbn in H |- *. destruct H as [-> ->]; [lia|].
    set (x := rankXp (state w)) in *.
    assert (x `mod` 100 = (x - 100) `mod` 100) as Hm
      by (rewrite <- (Z_mod_plus_full (x - 100) 1 100); f_equal; lia).
    assert (x `div` 100 = (x - 100) `div` 100 + 1) as Hd
      by (rewrite <- (Z_div_plus_full (x - 100) 1 100) by lia; f_equal; lia).
    lia.
  - rewrite Z.mod_small, Z.div_small by lia. lia.
Qed.

Lemma addRewards_frame (w : World) (points currency_ : Z) :
  ∃ r x ts,
    addRewards env points currency_ w =
      (Some tt,
       {| state := set_rank r (set_rankXp x
                     (set_currency (currency (state w) + currency_)
                        (set_sessionPoints (sessionPoints (state w) + points) (state w))));
          intervals := intervals w; nextId := nextId w;
          toasts := toasts w ++ ts |}).
Proof.
  unfold addRewards, bind, assign. cbn.
  match goal with |- context [levelUp env ?W] =>
    destruct (levelUp_frame W) as (r & x & ts & ->) end.
  exists r, x, ts. destruct w as [[] ? ? ?]. reflexivity.
Qed.

(** C3. For a reward [p >= 0] and [rankXp] in [0,100), [addRewards(p, c)]
    leaves [rankXp = (old + p) mod 100] and raises [rank] by
    [floor((old + p) / 100)], however many thresholds [p] crosses;
    [rankXp] is again in [0,100). *)
Theorem addRewards_rank_progress (w : World) (p c : Z) :
  0 ≤ p →
  0 ≤ rankXp (state w) < 100 →
  let w' := exec (addRewards env p c) w in
  rankXp (state w') = (rankXp (state w) + p) `mod` 100 ∧
  rank (state w') = rank (state w) + (rankXp (state w) + p) `div` 100 ∧
  0 ≤ rankXp (state w') < 100.
Proof.
  intros Hp Hold w'. subst w'.
  unfold exec, addRewards, bind, assign. cbn.
  match goal with |- context [levelUp env ?W] =>
    destruct (levelUp_divmod W) as [-> ->]; [cbn; lia|] end.
  cbn. split; [reflexivity|]. split; [reflexivity|].
  apply Z.mod_pos_bound. lia.
Qed.

End Rewards.

(** A reward of 250 points on the default page: 45 + 250 = 295, two levels
    up and 95 left. *)
Lemma addRewards_rank_progress_witness :
  let w' := exec (addRewards default_env 250 0) (initial_world default_env) in
  rankXp (state w') = 95 ∧ rank (state w') = 5 ∧ 0 ≤ rankXp (state w') < 100.
Proof.
  apply (addRewards_rank_progress default_env (initial_world default_env) 250 0).
  - lia.
  - cbn. lia.
Defined.

(** ** Symbolic execution of the handlers *)

(** Normalises a world: the assignments are carried out and every state
    becomes a record of field values. *)
Ltac js_norm :=
  cbv [fst snd state intervals nextId toasts set_state
       screen startedAt selectedExercise completedSets entries currentInput
       restRemaining restTimerStarted restTimerId inputSubmitted rank rankXp
       streak currency sessionPoints
       set_screen set_startedAt set_selectedExercise set_completedSets set_entries
       set_currentInput set_restRemaining set_restTimerStarted set_restTimerId
       set_inputSubmitted set_rank set_rankXp set_streak set_currency
       set_sessionPoints
       showToast setInterval clearInterval render deref throwTypeError assign
       get bind ret exec negb orb andb] in *.

(** Unfolds the functions of the script down to the conditions they
    branch on, over a world given field by field. *)
Ltac js_unfold :=
  repeat match goal with w : World |- _ => destruct w as [[] ? ? ?] end;
  cbv [handler restartSession submitSet enterResultData chooseExercise
       startWorkout restTick onRestTimerFinished advanceAfterSet beginRestTimer
       stopRestTimer notifyTimerDone] in *;
  js_norm.

(** Replaces one call of [addRewards] by the world it returns. *)
Ltac js_rewards :=
  match goal with
  | |- context [addRewards ?env ?p ?c ?W] =>
      let r := fresh "r" in let x := fresh "x" in
      let ts := fresh "ts" in let E := fresh "E" in
      destruct (addRewards_frame env W p c) as (r & x & ts & E);
      rewrite E; clear E; js_norm
  end.

(** Splits on the next condition of the path. *)
Ltac js_branch :=
  match goal with
  | |- context [match ?c with _ => _ end] =>
      lazymatch c with
      | context [match _ with _ => _ end] => fail
      | _ => let E := fresh "E" in destruct c eqn:E
      end;
      js_norm
  end.

Ltac js_run := js_unfold; repeat (first [js_rewards | js_branch]).

(** Turns the decided comparisons of a path into arithmetic facts. *)
Ltac js_decided :=
  repeat match goal with
  | H : bool_decide _ = true |- _ => apply bool_decide_eq_true in H
  | H : bool_decide _ = false |- _ => apply bool_decide_eq_false in H
  end.

Section Invariants.

Context (env : Env).

Lemma sets_bounded_same (s s' : State) :
  completedSets s' = completedSets s → sets_bounded env s → sets_bounded env s'.
Proof. unfold sets_bounded. intros ->. done. Qed.

Lemma sets_bounded_reset (s' : State) :
  setCounts_nonneg env →
  completedSets s' = replicate (length (exercises env)) 0 →
  sets_bounded env s'.
Proof.
  unfold sets_bounded. intros Hwf ->. split; [apply length_replicate|].
  intros i c ex [-> _]%lookup_replicate Hex.
  eapply Forall_lookup_1 in Hwf; [|exact Hex]. exact Hwf.
Qed.

Lemma sets_bounded_increment (s s' : State) (idx : nat) (ex : Exercise) :
  sets_bounded env s →
  exerciseByIndex env idx = Some ex →
  lt_undef (completedSets s !! idx) (setCount ex) = true →
  completedSets s' = alter (λ n, n + 1) idx (completedSets s) →
  sets_bounded env s'.
Proof.
  unfold sets_bounded. intros [Hlen Hb] Hex Hlt ->. split; [by rewrite length_alter|].
  intros i c ex' Hc Hex'. rewrite list_lookup_alter in Hc.
  destruct (decide (idx = i)) as [->|]; [|by eauto].
  unfold exerciseByIndex in Hex.
  destruct (completedSets s !! i) as [c0|] eqn:Hc0; [|done].
  cbn in Hc, Hlt. apply bool_decide_eq_true in Hlt.
  assert (ex' = ex) as -> by congruence.
  assert (c = c0 + 1) as -> by congruence. lia.
Qed.

Ltac solve_sets_bounded :=
  first
    [ eapply sets_bounded_same; [reflexivity | eassumption]
    | eapply sets_bounded_increment; [eassumption | eassumption | eassumption | reflexivity]
    | eapply sets_bounded_reset; [eassumption | reflexivity] ].

(** [advanceAfterSet] increments a slot only below [setCount]. *)
Lemma advanceAfterSet_sets_bounded (w : World) :
  sets_bounded env (state w) → sets_bounded env (state (exec (advanceAfterSet env) w)).
Proof. intros Hb. js_run; solve_sets_bounded. Qed.

Lemma handler_sets_bounded (ev : Event) (w : World) :
  setCounts_nonneg env →
  sets_bounded env (state w) → sets_bounded env (state (exec (handler env ev) w)).
Proof. intros Hwf Hb. destruct ev; js_run; solve_sets_bounded. Qed.

Lemma initial_sets_bounded :
  setCounts_nonneg env → sets_bounded env (initial_state env).
Proof. intros Hwf. by eapply sets_bounded_reset. Qed.

Lemma reachable_sets_bounded (w : World) :
  setCounts_nonneg env → reachable env w → sets_bounded env (state w).
Proof.
  intros Hwf Hreach. induction Hreach as [|w w' _ IH Hstep].
  - by apply initial_sets_bounded.
  - destruct Hstep as [w ev _]. by apply handler_sets_bounded.
Qed.

(** An event leaves [completedSets] alone, resets it (restart), or
    runs the guarded increment of [advanceAfterSet] on the selected
    exercise. *)
Lemma handler_completedSets (ev : Event) (w : World) :
  let cs := completedSets (state w) in
  let cs' := completedSets (state (exec (handler env ev) w)) in
  cs' = cs ∨
  cs' = replicate (length (exercises env)) 0 ∨
  ∃ idx ex,
    selectedExercise (state w) = Some idx ∧
    exerciseByIndex env idx = Some ex ∧
    lt_undef (cs !! idx) (setCount ex) = true ∧
    cs' = alter (λ n, n + 1) idx cs.
Proof.
  destruct ev; js_run;
    first [by left | by right; left | right; right; by do 2 eexists].
Qed.

(** C1. In every reachable state [completedSets[i] <= exercises[i].setCount]
    for every exercise [i]; [advanceAfterSet] keeps it so, and no event
    raises a slot of [completedSets] other than through the guarded
    increment of [advanceAfterSet]. *)
Theorem completedSets_never_exceed_setCount (w : World) :
  setCounts_nonneg env →
  reachable env w →
  sets_bounded env (state w) ∧
  sets_bounded env (state (exec (advanceAfterSet env) w)) ∧
  ∀ ev,
    let cs := completedSets (state w) in
    let cs' := completedSets (state (exec (handler env ev) w)) in
    cs' = cs ∨
    cs' = replicate (length (exercises env)) 0 ∨
    ∃ idx ex,
      selectedExercise (state w) = Some idx ∧
      exerciseByIndex env idx = Some ex ∧
      lt_undef (cs !! idx) (setCount ex) = true ∧
      cs' = alter (λ n, n + 1) idx cs.
Proof.
  intros Hwf Hreach.
  pose proof (reachable_sets_bounded w Hwf Hreach) as Hb.
  split_and!; [exact Hb | by apply advanceAfterSet_sets_bounded |].
  intros ev. apply handler_completedSets.
Qed.

Lemma run_reachable (evs : list Event) (w w' : World) :
  reachable env w → run env evs w = Some w' → reachable env w'.
Proof.
  revert w. induction evs as [|ev evs IH]; intros w Hw Hrun; cbn in Hrun.
  - by simplify_eq.
  - destruct (enabled w ev) eqn:Hen; [|done].
    eapply IH; [|exact Hrun]. eapply reachable_step; [exact Hw|by constructor].
Qed.

(** A run from the first page ends in a reachable world (the first page
    itself when the run is not possible). *)
Lemma scenario_reachable (evs : list Event) :
  reachable env (default (initial_world env) (run env evs (initial_world env))).
Proof.
  destruct (run env evs (initial_world env)) as [w'|] eqn:Hrun; cbn.
  - eapply run_reachable; [apply reachable_initial | exact Hrun].
  - apply reachable_initial.
Qed.

End Invariants.

Lemma default_setCounts_nonneg : setCounts_nonneg default_env.
Proof. repeat constructor; cbn; lia. Qed.

Lemma first_set_done_reachable : reachable default_env first_set_done.
Proof. apply scenario_reachable. Qed.

Lemma completedSets_never_exceed_setCount_witness :
  sets_bounded default_env (state first_set_done) ∧
  sets_bounded default_env (state (exec (advanceAfterSet default_env) first_set_done)).
Proof.
  refine (let H := completedSets_never_exceed_setCount default_env first_set_done _ _ in
          conj (proj1 H) (proj1 (proj2 H))).
  - repeat constructor; cbn; lia.
  - apply scenario_reachable.
Defined.

(** ** Restart *)

Section Restart.

Context (env : Env).

Lemma handler_timers_owned (ev : Event) (w : World) :
  timers_owned w → timers_owned (exec (handler env ev) w).
Proof.
  unfold timers_owned. intros Hown.
  destruct ev; js_run; subst; cbn; set_solver.
Qed.

Lemma reachable_timers_owned (w : World) :
  reachable env w → timers_owned w.
Proof.
  induction 1 as [|w w' _ IH Hstep]; [done|].
  destruct Hstep. by apply handler_timers_owned.
Qed.

Lemma restartSession_state (w : World) :
  state (exec (restartSession env) w) = initial_state env.
Proof. js_run; reflexivity. Qed.

(** C5. From every reachable state [restart()] leads to the state the
    script constructs (all fifteen fields, the timer handle included), and
    no countdown stays scheduled, as on the first page. *)
Theorem restartSession_restores_initial_state (w : World) :
  reachable env w →
  state (exec (restartSession env) w) = initial_state env ∧
  intervals (exec (restartSession env) w) = ∅.
Proof.
  intros Hown%reachable_timers_owned. split; [apply restartSession_state|].
  unfold timers_owned in Hown. js_run; subst; cbn; set_solver.
Qed.

End Restart.

Lemma restartSession_restores_initial_state_witness :
  state (exec (restartSession default_env) first_set_done) = initial_state default_env ∧
  intervals (exec (restartSession default_env) first_set_done) = ∅.
Proof.
  apply (restartSession_restores_initial_state default_env first_set_done).
  apply scenario_reachable.
Defined.

(** ** Entering and submitting results *)

Lemma valid_submission_spec (reps weight : JsNumber) :
  valid_submission reps weight = true ↔
  ∃ r wt : Q, reps = Finite r ∧ weight = Finite wt ∧ (0 < r)%Q ∧ (0 <= wt)%Q.
Proof.
  unfold valid_submission, js_zero. split.
  - destruct reps as [| |r], weight as [| |wt]; cbn; try done;
      try (by rewrite andb_false_r).
    intros [Hr Hw]%andb_true_iff. exists r, wt.
    apply negb_true_iff, not_true_iff_false in Hr.
    apply negb_true_iff, negb_false_iff in Hw.
    rewrite Qle_bool_iff in Hr, Hw.
    split_and!; [done|done| |done]. by apply Qnot_le_lt.
  - intros (r & wt & -> & -> & Hr & Hw). cbn.
    apply andb_true_iff. split.
    + apply negb_true_iff, not_true_iff_false. rewrite Qle_bool_iff.
      by apply Qlt_not_le.
    + apply negb_true_iff, negb_false_iff. by rewrite Qle_bool_iff.
Qed.

Section Submission.

Context (env : Env).

(** C6. With an exercise selected, a second [enterResultEntry()] right
    after the first finds the timer started and changes nothing: the
    remaining seconds, the timer handle and the scheduled countdowns are
    those the first call left. *)
Theorem enterResultData_twice (w : World) (idx : nat) (ex : Exercise) :
  selectedExercise (state w) = Some idx →
  exerciseByIndex env idx = Some ex →
  let w1 := exec (enterResultData env) w in
  let w2 := exec (enterResultData env) w1 in
  restTimerStarted (state w1) = true ∧
  restRemaining (state w2) = restRemaining (state w1) ∧
  restTimerId (state w2) = restTimerId (state w1) ∧
  intervals w2 = intervals w1 ∧
  nextId w2 = nextId w1 ∧
  w2 = w1.
Proof.
  intros Hsel Hex. js_run; simplify_eq; done.
Qed.

(** Without a selection [submitSet] returns at once: nothing is written
    and no toast is shown. *)
Lemma submitSet_without_selection (w : World) (reps weight : JsNumber) (at_ : string) :
  selectedExercise (state w) = None →
  exec (submitSet env reps weight at_) w = w.
Proof. intros Hsel. js_run; simplify_eq; done. Qed.

(** Without a selection [enterResultData] only shows its toast. *)
Lemma enterResultData_without_selection (w : World) :
  selectedExercise (state w) = None →
  state (exec (enterResultData env) w) = state w ∧
  intervals (exec (enterResultData env) w) = intervals w ∧
  toasts (exec (enterResultData env) w) = toasts w ++ ["Select an exercise first"].
Proof. intros Hsel. js_run; simplify_eq; done. Qed.

(** What a call of [submitSet] does to the entries: nothing, or one entry
    more in the slot of the selected exercise, and that only for an open
    set and numbers that pass the two checks. *)
Lemma submitSet_entries (w : World) (reps weight : JsNumber) (at_ : string) :
  let w' := exec (submitSet env reps weight at_) w in
  entries (state w') = entries (state w) ∨
  ∃ idx,
    selectedExercise (state w) = Some idx ∧
    inputSubmitted (state w) = false ∧
    valid_submission reps weight = true ∧
    entries (state w') =
      alter (λ es, es ++ [entry ((λ n, n + 1) <$> completedSets (state w) !! idx)
                                reps weight at_])
            idx (entries (state w)).
Proof.
  unfold valid_submission.
  js_run; first [by left | right; by eexists].
Qed.

(** A call that the checks stop leaves the state alone and shows one
    toast. *)
Lemma submitSet_rejected (w : World) (reps weight : JsNumber) (at_ : string) (idx : nat) :
  selectedExercise (state w) = Some idx →
  inputSubmitted (state w) = true ∨ valid_submission reps weight = false →
  let w' := exec (submitSet env reps weight at_) w in
  state w' = state w ∧ intervals w' = intervals w ∧
  ∃ notice, toasts w' = toasts w ++ [notice].
Proof.
  unfold valid_submission. intros Hsel Hrej.
  js_run; simplify_eq; try (split_and!; [done | done | by eexists]).
  all: by destruct Hrej.
Qed.

(** What one call of [submitSet] leaves behind when an exercise is
    selected and [c] of its sets are completed: either the state is as
    before, or the entry for set [c + 1] is pushed and then the set
    waits for its rest ([inputSubmitted]), or the exercise is finished
    and deselected, or the exercise has moved on to set [c + 2]. *)
Lemma submitSet_outcome (w : World) (reps weight : JsNumber) (at_ : string)
      (idx : nat) (c : Z) :
  selectedExercise (state w) = Some idx →
  completedSets (state w) !! idx = Some c →
  let w' := exec (submitSet env reps weight at_) w in
  state w' = state w ∨
  (inputSubmitted (state w) = false ∧
   valid_submission reps weight = true ∧
   entries (state w') =
     alter (λ es, es ++ [entry (Some (c + 1)) reps weight at_]) idx (entries (state w)) ∧
   ((inputSubmitted (state w') = true ∧ selectedExercise (state w') = Some idx ∧
     completedSets (state w') = completedSets (state w)) ∨
    selectedExercise (state w') = None ∨
    (selectedExercise (state w') = Some idx ∧
     completedSets (state w') !! idx = Some (c + 1)))).
Proof.
  unfold valid_submission. intros Hsel Hc.
  js_run; simplify_eq; try (by left); right.
  all: rewrite ?Hc in *; cbn in *.
  all: split_and!; try done.
  all: try (by left).
  all: try (by right; left).
  all: right; right; split; [done|].
  all: try (by rewrite list_lookup_alter_eq, Hc).
  all: js_decided; lia.
Qed.

(** An open set and numbers that pass the checks: the entry is pushed. *)
Lemma submitSet_accepted (w : World) (reps weight : JsNumber) (at_ : string)
      (idx : nat) (es : list SetEntry) :
  selectedExercise (state w) = Some idx →
  entries (state w) !! idx = Some es →
  inputSubmitted (state w) = false →
  valid_submission reps weight = true →
  entries (state (exec (submitSet env reps weight at_) w)) =
    alter (λ es, es ++ [entry ((λ n, n + 1) <$> completedSets (state w) !! idx)
                              reps weight at_])
          idx (entries (state w)).
Proof.
  unfold valid_submission. intros Hsel Hes Hopen Hvalid.
  js_run; simplify_eq; done.
Qed.

(** C7. With exercise [idx] selected and [c] of its sets completed:
    an accepted [submitSet] appends exactly one entry, numbered [c + 1];
    a call while [inputSubmitted] is set is rejected and appends nothing;
    no call appends more than one entry; and of two calls in a row the
    second never records set [c + 1] again. *)
Theorem submitSet_one_entry_per_set
        (w : World) (reps weight reps2 weight2 : JsNumber) (at_ at2 : string)
        (idx : nat) (es : list SetEntry) (c : Z) :
  selectedExercise (state w) = Some idx →
  entries (state w) !! idx = Some es →
  completedSets (state w) !! idx = Some c →
  let w' := exec (submitSet env reps weight at_) w in
  let w'' := exec (submitSet env reps2 weight2 at2) w' in
  (inputSubmitted (state w) = false → valid_submission reps weight = true →
   entries (state w') !! idx = Some (es ++ [entry (Some (c + 1)) reps weight at_])) ∧
  (inputSubmitted (state w) = true → state w' = state w) ∧
  (entries (state w') !! idx = Some es ∨
   entries (state w') !! idx = Some (es ++ [entry (Some (c + 1)) reps weight at_])) ∧
  (∃ new,
     entries (state w'') !! idx = Some (es ++ new) ∧
     (new = [] ∨
      (∃ e1, new = [e1] ∧ e_set e1 = Some (c + 1)) ∨
      (∃ e1 e2, new = [e1; e2] ∧ e_set e1 = Some (c + 1) ∧ e_set e2 = Some (c + 2)))).
Proof.
  intros Hsel Hes Hc w' w''.
  assert (∀ (l : list (list SetEntry)) (l0 : list SetEntry) e,
            l !! idx = Some l0 →
            alter (λ es, es ++ [e]) idx l !! idx = Some (l0 ++ [e])) as Halter.
  { intros l l0 e Hl. by rewrite list_lookup_alter_eq, Hl. }
  split_and!.
  - intros Hopen Hvalid. subst w'.
    rewrite (submitSet_accepted w reps weight at_ idx es) by done.
    rewrite Hc. by apply Halter.
  - intros Hsub. by apply (submitSet_rejected w reps weight at_ idx); [|left].
  - pose proof (submitSet_outcome w reps weight at_ idx c Hsel Hc) as Hout.
    cbv zeta in Hout. fold w' in Hout.
    destruct Hout as [Hsame|(_ & _ & Hent & _)].
    + left. by rewrite Hsame.
    + right. rewrite Hent. by apply Halter.
  - pose proof (submitSet_outcome w reps weight at_ idx c Hsel Hc) as Hout.
    cbv zeta in Hout. fold w' in Hout.
    destruct Hout as [Hsame|(_ & _ & Hent & Hnext)].
    + (* the first call changed nothing: the second is a first call *)
      pose proof (submitSet_outcome w' reps2 weight2 at2 idx c) as Hout2.
      cbv zeta in Hout2. fold w'' in Hout2. rewrite Hsame in Hout2.
      destruct Hout2 as [Hsame2|(_ & _ & Hent2 & _)]; [done|done| |].
      * exists []. rewrite app_nil_r, Hsame2. eauto.
      * eexists [_]. rewrite Hent2. split; [by apply Halter|].
        right; left. by eexists.
    + assert (entries (state w') !! idx = Some (es ++ [entry (Some (c + 1)) reps weight at_]))
        as Hes' by (rewrite Hent; by apply Halter).
      destruct Hnext as [(Hsub & Hsel' & _)|[Hnone|[Hsel' Hc']]].
      * (* waiting for the rest: the second call is rejected *)
        pose proof (submitSet_rejected w' reps2 weight2 at2 idx Hsel' (or_introl Hsub))
          as (Hsame2 & _). fold w'' in Hsame2.
        eexists [_]. rewrite Hsame2, Hes'.
        split; [reflexivity|]. right; left. by eexists.
      * (* exercise finished: nothing is selected *)
        eexists [_]. unfold w''. rewrite submitSet_without_selection by done.
        rewrite Hes'. split; [reflexivity|]. right; left. by eexists.
      * (* next set: a second entry carries the next number *)
        pose proof (submitSet_outcome w' reps2 weight2 at2 idx (c + 1) Hsel' Hc') as Hout2.
        cbv zeta in Hout2. fold w'' in Hout2.
        destruct Hout2 as [Hsame2|(_ & _ & Hent2 & _)].
        -- eexists [_]. rewrite Hsame2, Hes'.
           split; [reflexivity|]. right; left. by eexists.
        -- eexists [_; _]. rewrite Hent2. erewrite Halter by exact Hes'.
           rewrite <- app_assoc. cbn. split; [reflexivity|].
           right; right. do 2 eexists. split; [reflexivity|]. cbn.
           split; [done|]. f_equal. lia.
Qed.

(** C4, as the code has it. With an exercise selected, [submitSet]
    changes the entries only for an open set and a finite [reps > 0] and
    finite [weight >= 0] (whole or not); a call whose numbers fail these
    checks is rejected with one toast, the session state (its points and
    currency included) is as before and no countdown is scheduled. *)
Theorem submitSet_guard (w : World) (reps weight : JsNumber) (at_ : string) (idx : nat) :
  selectedExercise (state w) = Some idx →
  let w' := exec (submitSet env reps weight at_) w in
  (entries (state w') ≠ entries (state w) →
   inputSubmitted (state w) = false ∧ valid_submission reps weight = true) ∧
  (valid_submission reps weight = false →
   state w' = state w ∧
   sessionPoints (state w') = sessionPoints (state w) ∧
   intervals w' = intervals w ∧
   ∃ notice, toasts w' = toasts w ++ [notice]).
Proof.
  intros Hsel w'. split.
  - intros Hchanged.
    destruct (submitSet_entries w reps weight at_) as [Hsame|(? & _ & ? & ? & _)]; done.
  - intros Hinvalid.
    destruct (submitSet_rejected w reps weight at_ idx Hsel (or_intror Hinvalid))
      as (Hstate & Hint & Htoast).
    fold w' in Hstate, Hint, Htoast. by rewrite Hstate.
Qed.


(** [chooseExercise] never cancels a countdown: the scheduled handles
    and the handle the state holds are those it found. *)
Lemma chooseExercise_keeps_timers (w : World) (index : nat) :
  intervals (exec (chooseExercise env index) w) = intervals w ∧
  restTimerId (state (exec (chooseExercise env index) w)) = restTimerId (state w).
Proof. js_run; done. Qed.

End Submission.

Lemma enterResultData_twice_witness :
  let w1 := exec (enterResultData default_env) result_form_open in
  exec (enterResultData default_env) w1 = w1.
Proof.
  refine (proj2 (proj2 (proj2 (proj2 (proj2
    (enterResultData_twice default_env result_form_open 0%nat
       {| name := "Lat Pulldown"; targetReps := 10; setCount := 4;
          defaultWeight := 90; restSeconds := 3 |} _ _)))))).
  - vm_compute. reflexivity.
  - reflexivity.
Defined.

Lemma submitSet_one_entry_per_set_witness :
  entries (state (exec (submitSet default_env (of_Z 10) (of_Z 90) "10:00:00") result_form_open))
    !! 0%nat
  = Some ([] ++ [entry (Some (0 + 1)) (of_Z 10) (of_Z 90) "10:00:00"]).
Proof.
  refine (proj1 (submitSet_one_entry_per_set default_env result_form_open
                   (of_Z 10) (of_Z 90) (of_Z 10) (of_Z 90) "10:00:00" "10:00:01"
                   0%nat [] 0 _ _ _) _ _).
  all: vm_compute; reflexivity.
Defined.

(** A submission of two and a half reps on the open result form is
    recorded and rewarded. *)
Lemma fractional_reps_are_recorded :
  let w' := exec (submitSet default_env (Finite (5 # 2)) (of_Z 90) "10:00:00")
                 result_form_open in
  isInteger (Finite (5 # 2)) = false ∧
  entries (state w') !! 0%nat
    = Some [entry (Some 1) (Finite (5 # 2)) (of_Z 90) "10:00:00"] ∧
  sessionPoints (state w') = sessionPoints (state result_form_open) + 10.
Proof. vm_compute. done. Qed.

Lemma submitSet_guard_witness :
  let w' := exec (submitSet default_env (of_Z 0) (of_Z 90) "10:00:00") result_form_open in
  state w' = state result_form_open ∧
  sessionPoints (state w') = sessionPoints (state result_form_open) ∧
  intervals w' = intervals result_form_open ∧
  ∃ notice, toasts w' = toasts result_form_open ++ [notice].
Proof.
  refine (proj2 (submitSet_guard default_env result_form_open
                   (of_Z 0) (of_Z 90) "10:00:00" 0%nat _) _).
  all: vm_compute; reflexivity.
Defined.


(** ** Re-selecting while a countdown runs *)

(** C2, evaluated. On the default page the first exercise is selected and
    its result form opened, so the countdown with handle 1 runs at 3
    seconds; selecting the exercise again succeeds and resets the per-set
    fields, but the countdown stays scheduled, and when it fires next it
    finds [restRemaining = 0], stops, and moves the reset state to the
    input screen. On the page without rest the same happens from the
    circuit screen: the countdown of the finished exercise fires into the
    newly selected one. *)
Theorem reselect_leaves_countdown_running :
  (let w := result_form_open in
   let w' := exec (chooseExercise default_env 0) w in
   let w'' := exec (handler default_env (TimerFires 1%positive)) w' in
   (restTimerId (state w) = Some 1%positive ∧ restRemaining (state w) = 3 ∧
    restTimerStarted (state w) = true ∧ screen (state w) = input) ∧
   (selectedExercise (state w') = Some 0%nat ∧ restRemaining (state w') = 0 ∧
    restTimerStarted (state w') = false ∧ screen (state w') = progress) ∧
   (restTimerId (state w') = Some 1%positive ∧
    enabled w' (TimerFires 1%positive) = true) ∧
   (screen (state w'') = input ∧
    toasts w'' = ["Lat Pulldown rest complete";
                  "Timer ended. Submit set data to continue."])) ∧
  (let w := back_on_circuit in
   let w' := exec (chooseExercise no_rest_env 1) w in
   let w'' := exec (handler no_rest_env (TimerFires 1%positive)) w' in
   (screen (state w) = circuit ∧ selectedExercise (state w) = None ∧
    restTimerId (state w) = Some 1%positive) ∧
   (selectedExercise (state w') = Some 1%nat ∧ screen (state w') = progress ∧
    restTimerStarted (state w') = false) ∧
   (restTimerId (state w') = Some 1%positive ∧
    enabled w' (TimerFires 1%positive) = true) ∧
   (screen (state w'') = input ∧
    toasts w'' = ["Cable Row rest complete";
                  "Timer ended. Submit set data to continue."])).
Proof. vm_compute. done. Qed.

(** ** Construction *)

(** The script accepts the empty workout; the session it builds has no
    slots and its first transition lands on the completion screen. *)
Lemma empty_workout_is_accepted :
  ∃ env w,
    construct empty_workout_config = Some (env, w) ∧
    exercises env = [] ∧
    completedSets (state w) = [] ∧
    screen (state (exec (startWorkout env 1700000000000) w)) = complete.
Proof. do 2 eexists. split; [reflexivity|]. vm_compute. done. Qed.

(** C9, as the code has it. The script does not validate the workout: for
    every configuration whose workout carries an exercise list, empty or
    not, construction succeeds with that list; with the empty list
    [allExercisesComplete] holds from the start and [startWorkout] goes
    straight to the completion screen. *)
Theorem construct_accepts_any_exercise_list
        (config : DesignConfig) (wk : WorkoutConfig) (exs : list Exercise) :
  cfg_workout config = Some wk →
  workout_exercises wk = Some exs →
  let env := resolve_with exs config in
  construct config = Some (env, initial_world env) ∧
  (exs = [] →
   ∀ now, screen (state (exec (startWorkout env now) (initial_world env))) = complete).
Proof.
  intros Hwk Hexs env. split.
  - unfold construct, resolve. rewrite Hwk. cbn. by rewrite Hexs.
  - intros -> now. reflexivity.
Qed.

Lemma construct_accepts_any_exercise_list_witness :
  let env := resolve_with [] empty_workout_config in
  construct empty_workout_config = Some (env, initial_world env) ∧
  (([] : list Exercise) = [] →
   ∀ now, screen (state (exec (startWorkout env now) (initial_world env))) = complete).
Proof.
  apply (construct_accepts_any_exercise_list empty_workout_config
           {| workout_name := "Empty"; workout_exercises := Some [] |} []).
  - reflexivity.
  - reflexivity.
Defined.

(** ** The entries and the completed sets *)

Section Entries.

Context (env : Env).

Lemma reachable_orderly_reachable (w : World) :
  reachable_orderly env w → reachable env w.
Proof.
  induction 1 as [|w ev _ IH Hen _]; [apply reachable_initial|].
  eapply reachable_step; [exact IH|by constructor].
Qed.

Lemma log_consistent_same (s s' : State) :
  log_consistent env s →
  selectedExercise s' = selectedExercise s →
  completedSets s' = completedSets s →
  entries s' = entries s →
  inputSubmitted s' = inputSubmitted s →
  log_consistent env s'.
Proof.
  unfold log_consistent, selection_open, entries_match, submitted_here.
  intros H -> -> -> ->. exact H.
Qed.

Lemma log_consistent_reset (s' : State) :
  selectedExercise s' = None →
  completedSets s' = replicate (length (exercises env)) 0 →
  entries s' = replicate (length (exercises env)) [] →
  inputSubmitted s' = false →
  log_consistent env s'.
Proof.
  unfold log_consistent, selection_open, entries_match, submitted_here.
  intros -> -> -> ->. rewrite !length_replicate. split_and!; try done.
  intros i es c [-> _]%lookup_replicate [-> _]%lookup_replicate. done.
Qed.

Lemma log_consistent_select (s s' : State) (index : nat) (ex : Exercise) :
  log_consistent env s →
  inputSubmitted s = false →
  exerciseByIndex env index = Some ex →
  ge_undef (completedSets s !! index) (setCount ex) = false →
  selectedExercise s' = Some index →
  completedSets s' = completedSets s →
  entries s' = entries s →
  inputSubmitted s' = false →
  log_consistent env s'.
Proof.
  unfold log_consistent, selection_open, entries_match, submitted_here.
  intros (Hlc & Hle & Hopen & Hsub & Hmatch) Hs Hex Hge -> -> -> ->.
  rewrite Hs in Hmatch. split_and!; try done.
  intros idx [= <-].
  destruct (lookup_lt_is_Some_2 (completedSets s) index) as [c Hc].
  { rewrite Hlc. by eapply lookup_lt_Some. }
  rewrite Hc in Hge. cbn in Hge. js_decided.
  exists ex, c. split_and!; [done|done|lia].
Qed.

Lemma log_consistent_record (s s' : State) (idx : nat) (e : SetEntry) :
  log_consistent env s →
  selectedExercise s = Some idx →
  inputSubmitted s = false →
  selectedExercise s' = Some idx →
  completedSets s' = completedSets s →
  entries s' = alter (λ es, es ++ [e]) idx (entries s) →
  inputSubmitted s' = true →
  log_consistent env s'.
Proof.
  unfold log_consistent, selection_open, entries_match, submitted_here.
  intros (Hlc & Hle & Hopen & Hsub & Hmatch) Hsel Hs -> -> -> ->.
  rewrite Hs in Hmatch. rewrite Hsel in Hopen. rewrite length_alter.
  split_and!; try done.
  intros i es c Hes Hc. rewrite list_lookup_alter in Hes. cbn.
  destruct (decide (idx = i)) as [->|Hne].
  - rewrite bool_decide_eq_true_2 by done.
    destruct (entries s !! i) as [es0|] eqn:Hes0; [|done].
    cbn in Hes. injection Hes as <-. rewrite length_app. cbn.
    specialize (Hmatch i es0 c Hes0 Hc). cbn in Hmatch. lia.
  - rewrite bool_decide_eq_false_2 by congruence.
    specialize (Hmatch i es c Hes Hc). cbn in Hmatch. lia.
Qed.

(** [advanceAfterSet] on a submitted set: the counter takes the entry
    in, and the exercise is deselected when it has reached [setCount]. *)
Lemma log_consistent_advance (s s' : State) (idx : nat) (ex : Exercise) (g : bool) :
  log_consistent env s →
  selectedExercise s = Some idx →
  inputSubmitted s = true →
  exerciseByIndex env idx = Some ex →
  ge_undef (alter (λ n, n + 1) idx (completedSets s) !! idx) (setCount ex) = g →
  selectedExercise s' = (if g then None else Some idx) →
  completedSets s' = alter (λ n, n + 1) idx (completedSets s) →
  entries s' = entries s →
  inputSubmitted s' = false →
  log_consistent env s'.
Proof.
  unfold log_consistent, selection_open, entries_match, submitted_here.
  intros (Hlc & Hle & Hopen & Hsub & Hmatch) Hsel Hs Hex Hg Hsel' -> -> ->.
  rewrite Hs, Hsel in Hmatch. rewrite length_alter.
  destruct (Hopen idx Hsel) as (ex' & c & Hex' & Hc & Hlt).
  assert (ex' = ex) as -> by congruence.
  rewrite list_lookup_alter_eq, Hc in Hg. cbn in Hg.
  split_and!; try done.
  - intros idx' Hidx'. rewrite Hsel' in Hidx'.
    destruct g; [done|]. injection Hidx' as <-. js_decided.
    exists ex, (c + 1). rewrite list_lookup_alter_eq, Hc. split_and!; [done|done|lia].
  - intros i es c' Hes Hc'. rewrite list_lookup_alter in Hc'. cbn.
    destruct (decide (idx = i)) as [->|Hne].
    + rewrite Hc in Hc'. cbn in Hc'. injection Hc' as <-.
      specialize (Hmatch i es c Hes Hc). cbn in Hmatch.
      rewrite bool_decide_eq_true_2 in Hmatch by done. lia.
    + specialize (Hmatch i es c' Hes Hc'). cbn in Hmatch.
      rewrite bool_decide_eq_false_2 in Hmatch by congruence. lia.
Qed.

(** In a consistent state the selected exercise is below its
    [setCount]. *)
Lemma log_consistent_lt (s : State) (idx : nat) (ex : Exercise) :
  log_consistent env s →
  selectedExercise s = Some idx →
  exerciseByIndex env idx = Some ex →
  lt_undef (completedSets s !! idx) (setCount ex) = true.
Proof.
  intros (_ & _ & Hopen & _) Hsel Hex.
  destruct (Hopen idx Hsel) as (ex' & c & Hex' & -> & Hlt).
  assert (ex' = ex) as -> by congruence. cbn. by apply bool_decide_eq_true_2.
Qed.

Lemma log_consistent_submitted (s : State) :
  log_consistent env s → inputSubmitted s = true → selectedExercise s ≠ None.
Proof. intros (_ & _ & _ & Hsub & _) Hs Hnone. apply Hsub in Hs. rewrite Hnone in Hs. by destruct Hs. Qed.

(** [submitSet] that records and advances at once (no rest left). *)
Lemma log_consistent_record_advance
      (s s' : State) (idx : nat) (e : SetEntry) (ex : Exercise) (g : bool) :
  log_consistent env s →
  selectedExercise s = Some idx →
  inputSubmitted s = false →
  exerciseByIndex env idx = Some ex →
  ge_undef (alter (λ n, n + 1) idx (completedSets s) !! idx) (setCount ex) = g →
  selectedExercise s' = (if g then None else Some idx) →
  completedSets s' = alter (λ n, n + 1) idx (completedSets s) →
  entries s' = alter (λ es, es ++ [e]) idx (entries s) →
  inputSubmitted s' = false →
  log_consistent env s'.
Proof.
  intros Hs Hsel Hopen Hex Hg Hsel' Hcs' Hes' Hsub'.
  eapply (log_consistent_advance
            (set_inputSubmitted true
               (set_entries (alter (λ es, es ++ [e]) idx (entries s)) s)));
    [|exact Hsel|reflexivity|exact Hex|exact Hg|exact Hsel'|exact Hcs'|exact Hes'|exact Hsub'].
  eapply log_consistent_record; [exact Hs|exact Hsel|exact Hopen|exact Hsel|reflexivity..].
Qed.

Ltac solve_log_consistent :=
  first
    [ eapply log_consistent_same; [eassumption | reflexivity ..]
    | eapply log_consistent_reset; reflexivity
    | eapply log_consistent_select;
        [eassumption | reflexivity | eassumption | eassumption | reflexivity ..]
    | eapply log_consistent_record; [eassumption | reflexivity ..]
    | eapply log_consistent_advance;
        [eassumption | reflexivity | reflexivity | eassumption | eassumption
         | reflexivity ..]
    | eapply log_consistent_record_advance;
        [eassumption | reflexivity | reflexivity | eassumption | eassumption
         | reflexivity ..]
    | exfalso;
      match goal with
      | H : log_consistent _ _, Ex : exerciseByIndex _ _ = Some _,
        E : lt_undef _ _ = false |- _ =>
          pose proof (log_consistent_lt _ _ _ H eq_refl Ex) as C; cbn in C; congruence
      end ].

Lemma handler_log_consistent (ev : Event) (w : World) :
  orderly w ev = true →
  log_consistent env (state w) → log_consistent env (state (exec (handler env ev) w)).
Proof.
  intros Hord Hs. destruct ev; cbn in Hord; try apply negb_true_iff in Hord.
  - js_run; solve_log_consistent.
  - js_run; subst; solve_log_consistent.
  - js_run; solve_log_consistent.
  - js_run; solve_log_consistent.
  - js_run; solve_log_consistent.
  - js_run; solve_log_consistent.
Qed.

Lemma initial_log_consistent : log_consistent env (initial_state env).
Proof. by apply log_consistent_reset. Qed.

Lemma reachable_orderly_log_consistent (w : World) :
  reachable_orderly env w → log_consistent env (state w).
Proof.
  induction 1 as [|w ev _ IH _ Hord]; [apply initial_log_consistent|].
  by apply handler_log_consistent.
Qed.


End Entries.



(** * Further properties of the script *)

(** ** Points, rank and streak *)

Section Accounting.

Context (env : Env).

(** The level-up loop moves points from [rankXp] to [rank] in hundreds:
    [100 * rank + rankXp] is what it was. *)
Lemma levelUp_account (w : World) :
  100 * rank (state (levelUp env w)) + rankXp (state (levelUp env w))
  = 100 * rank (state w) + rankXp (state w).
Proof.
  funelim (levelUp env w).
  - rewrite H. cbn. lia.
  - reflexivity.
Qed.

Lemma levelUp_below (w : World) :
  rankXp (state (levelUp env w)) < 100.
Proof. funelim (levelUp env w); [exact H|lia]. Qed.

Lemma levelUp_nonneg (w : World) :
  0 ≤ rankXp (state w) → 0 ≤ rankXp (state (levelUp env w)).
Proof. funelim (levelUp env w); intros Hnn; [apply H; cbn; lia|lia]. Qed.

(** [addRewards] with the account of what it did to [rank] and [rankXp]. *)
Lemma addRewards_account (w : World) (points currency_ : Z) :
  ∃ r x ts,
    addRewards env points currency_ w =
      (Some tt,
       {| state := set_rank r (set_rankXp x
                     (set_currency (currency (state w) + currency_)
                        (set_sessionPoints (sessionPoints (state w) + points) (state w))));
          intervals := intervals w; nextId := nextId w;
          toasts := toasts w ++ ts |}) ∧
    100 * r + x = 100 * rank (state w) + (rankXp (state w) + points) ∧
    x < 100 ∧
    (0 ≤ rankXp (state w) + points → 0 ≤ x).
Proof.
  unfold addRewards, bind, assign. cbn.
  match goal with |- context [levelUp env ?W] =>
    pose proof (levelUp_account W) as Hacc;
    pose proof (levelUp_below W) as Hlt;
    pose proof (levelUp_nonneg W) as Hnn;
    destruct (levelUp_frame env W) as (r & x & ts & E) end.
  rewrite E in Hacc, Hlt, Hnn |- *. cbn in Hacc, Hlt, Hnn.
  exists r, x, ts. split_and!; [|lia|lia|exact Hnn].
  destruct w as [[] ? ? ?]. reflexivity.
Qed.

End Accounting.

(** Replaces one call of [addRewards] by the world it returns and keeps
    the account of the points. *)
Ltac js_rewards_account :=
  match goal with
  | |- context [addRewards ?env ?p ?c ?W] =>
      let r := fresh "r" in let x := fresh "x" in
      let ts := fresh "ts" in let E := fresh "E" in
      let Hacc := fresh "Hacc" in let Hlt := fresh "Hlt" in
      let Hnn := fresh "Hnn" in
      destruct (addRewards_account env W p c) as (r & x & ts & E & Hacc & Hlt & Hnn);
      rewrite E; clear E; js_norm
  end.

Ltac js_run_account :=
  js_unfold; repeat (first [js_rewards_account | js_branch]).

Section AccountingInvariants.

Context (env : Env).

Lemma handler_counters_account (ev : Event) (w : World) :
  counters_account env (state w) → counters_account env (state (exec (handler env ev) w)).
Proof.
  unfold counters_account. intros Hacc.
  destruct ev; js_run_account; lia.
Qed.

End AccountingInvariants.

(** ** The selection *)

Section Selection.

Context (env : Env).

Lemma selection_sound_keep (s s' : State) :
  selection_sound env s →
  selectedExercise s' = selectedExercise s →
  completedSets s' = completedSets s →
  length (entries s') = length (entries s) →
  (inputSubmitted s' = true → inputSubmitted s = true ∨ is_Some (selectedExercise s')) →
  selection_sound env s'.
Proof.
  unfold selection_sound, selection_open.
  intros (Hlc & Hle & Hopen & Hsub) Hsel -> -> Hsub'. rewrite Hsel.
  split_and!; [done..|]. intros [?|?]%Hsub'; [by apply Hsub|by rewrite <- Hsel].
Qed.

Lemma selection_sound_reset (s' : State) :
  selectedExercise s' = None →
  completedSets s' = replicate (length (exercises env)) 0 →
  entries s' = replicate (length (exercises env)) [] →
  inputSubmitted s' = false →
  selection_sound env s'.
Proof.
  unfold selection_sound, selection_open.
  intros -> -> -> ->. rewrite !length_replicate. done.
Qed.

Lemma selection_sound_select (s s' : State) (index : nat) (ex : Exercise) :
  selection_sound env s →
  exerciseByIndex env index = Some ex →
  ge_undef (completedSets s !! index) (setCount ex) = false →
  selectedExercise s' = Some index →
  completedSets s' = completedSets s →
  length (entries s') = length (entries s) →
  selection_sound env s'.
Proof.
  unfold selection_sound, selection_open.
  intros (Hlc & Hle & Hopen & Hsub) Hex Hge -> -> ->.
  split_and!; [done|done| |by eauto].
  intros idx [= <-].
  destruct (lookup_lt_is_Some_2 (completedSets s) index) as [c Hc].
  { rewrite Hlc. by eapply lookup_lt_Some. }
  rewrite Hc in Hge. cbn in Hge. js_decided.
  exists ex, c. split_and!; [done|done|lia].
Qed.

Lemma selection_sound_advance (s s' : State) (idx : nat) (ex : Exercise) (g : bool) :
  selection_sound env s →
  selectedExercise s = Some idx →
  exerciseByIndex env idx = Some ex →
  ge_undef (alter (λ n, n + 1) idx (completedSets s) !! idx) (setCount ex) = g →
  selectedExercise s' = (if g then None else Some idx) →
  completedSets s' = alter (λ n, n + 1) idx (completedSets s) →
  length (entries s') = length (entries s) →
  inputSubmitted s' = false →
  selection_sound env s'.
Proof.
  unfold selection_sound, selection_open.
  intros (Hlc & Hle & Hopen & Hsub) Hsel Hex Hg Hsel' -> -> ->.
  rewrite length_alter.
  destruct (Hopen idx Hsel) as (ex' & c & Hex' & Hc & Hlt).
  assert (ex' = ex) as -> by congruence.
  rewrite list_lookup_alter_eq, Hc in Hg. cbn in Hg.
  split_and!; [done|done| |done].
  intros idx' Hidx'. rewrite Hsel' in Hidx'.
  destruct g; [done|]. injection Hidx' as <-. js_decided.
  exists ex, (c + 1). rewrite list_lookup_alter_eq, Hc. split_and!; [done|done|lia].
Qed.

(** With a sound selection the selected exercise exists and is below its
    [setCount]. *)
Lemma selection_sound_lt (s : State) (idx : nat) :
  selection_sound env s →
  selectedExercise s = Some idx →
  ∃ ex, exerciseByIndex env idx = Some ex ∧
        lt_undef (completedSets s !! idx) (setCount ex) = true.
Proof.
  intros (_ & _ & Hopen & _) Hsel.
  destruct (Hopen idx Hsel) as (ex & c & Hex & -> & Hlt).
  exists ex. split; [done|]. cbn. by apply bool_decide_eq_true_2.
Qed.

Lemma selection_sound_submitted (s : State) :
  selection_sound env s → inputSubmitted s = true → is_Some (selectedExercise s).
Proof. intros (_ & _ & _ & Hsub). exact Hsub. Qed.

End Selection.

(** Closes the paths a sound selection rules out: a selected exercise
    that does not exist or is not below its [setCount]. *)
Ltac selection_absurd :=
  exfalso;
  match goal with
  | H : selection_sound _ _ |- _ =>
      let ex := fresh "ex" in let Hex := fresh "Hex" in let Hlt := fresh "Hlt" in
      destruct (selection_sound_lt _ _ _ H eq_refl) as (ex & Hex & Hlt);
      cbn in Hex, Hlt; congruence
  end.

(** Closes the paths with a submitted set and no selection. *)
Ltac submitted_absurd :=
  exfalso;
  match goal with
  | H : selection_sound _ _ |- _ =>
      let x := fresh "x" in let Hx := fresh "Hx" in
      destruct (selection_sound_submitted _ _ H eq_refl) as [x Hx];
      cbn in Hx; discriminate Hx
  end.

Ltac solve_selection_sound :=
  first
    [ eapply selection_sound_keep;
        [eassumption | reflexivity | reflexivity | cbn; by rewrite ?length_alter
         | cbn; by eauto]
    | eapply selection_sound_reset; reflexivity
    | eapply selection_sound_select;
        [eassumption | eassumption | eassumption | reflexivity | reflexivity
         | cbn; by rewrite ?length_alter]
    | eapply selection_sound_advance;
        [eassumption | reflexivity | eassumption | eassumption | reflexivity
         | reflexivity | cbn; by rewrite ?length_alter | reflexivity]
    | selection_absurd ].

Section SelectionInvariant.

Context (env : Env).

Lemma handler_selection_sound (ev : Event) (w : World) :
  selection_sound env (state w) →
  selection_sound env (state (exec (handler env ev) w)).
Proof. intros Hs. destruct ev; js_run; solve_selection_sound. Qed.

Lemma reachable_selection_sound (w : World) :
  reachable env w → selection_sound env (state w).
Proof.
  induction 1 as [|w w' _ IH Hstep].
  - by apply selection_sound_reset.
  - destruct Hstep. by apply handler_selection_sound.
Qed.

End SelectionInvariant.

(** ** The rest fields *)

Section Rest.

Context (env : Env).

Lemma handler_rest_consistent (ev : Event) (w : World) :
  selection_sound env (state w) →
  rest_consistent (state w) → rest_consistent (state (exec (handler env ev) w)).
Proof.
  unfold rest_consistent. intros Hs (H1 & H2 & H3).
  destruct ev; js_run; js_decided.
  all: try (split_and!; intros; simplify_eq; try done; try lia; by eauto).
  all: try (split_and!; intros; simplify_eq; try done; try lia;
            destruct H2 as [? ?]; [lia|]; by eauto).
  all: try (split_and!; intros; simplify_eq; try done; try lia;
            destruct H3 as (? & ? & ?); [done|]; split_and!; by eauto || lia).
  all: try (destruct H3 as (? & ? & [? ?]); [done|]; done).
  all: try selection_absurd.
  all: try submitted_absurd.
  all: naive_solver lia.
Qed.

Lemma reachable_rest_consistent (w : World) :
  reachable env w → rest_consistent (state w).
Proof.
  induction 1 as [|w w' Hw IH Hstep].
  - unfold rest_consistent. cbn. split_and!; [done|lia|done].
  - destruct Hstep. apply handler_rest_consistent; [|done].
    by apply reachable_selection_sound.
Qed.

Lemma valid_exercise (idx : nat) (ex : Exercise) :
  workout_valid env → exerciseByIndex env idx = Some ex →
  0 < setCount ex ∧ 0 ≤ restSeconds ex.
Proof. intros Hv Hex. by eapply (Forall_lookup_1 _ _ _ _ Hv). Qed.

Lemma handler_rest_bounded (ev : Event) (w : World) :
  workout_valid env →
  selection_sound env (state w) →
  rest_bounded env (state w) → rest_bounded env (state (exec (handler env ev) w)).
Proof.
  unfold rest_bounded. intros Hv Hs Hb.
  destruct ev; js_run; js_decided.
  all: repeat match goal with
       | H : exerciseByIndex env _ = Some ?e |- _ =>
           lazymatch goal with
           | _ : 0 ≤ restSeconds e |- _ => fail
           | _ => destruct (valid_exercise _ _ Hv H)
           end
       end.
  all: try (destruct Hb as (ex0 & Hex0 & Hb)).
  all: try done; try lia.
  all: try (eexists; split; [eassumption|lia]).
  all: try selection_absurd.
  all: try submitted_absurd.
Qed.

End Rest.

(** ** The screens *)

Section Screens.

Context (env : Env).

Lemma handler_main_pristine (ev : Event) (w : World) :
  (screen (state w) = main → state w = initial_state env) →
  screen (state (exec (handler env ev) w)) = main →
  state (exec (handler env ev) w) = initial_state env.
Proof.
  unfold initial_state. intros Hmain.
  destruct ev; js_run; intros Hscreen; try discriminate Hscreen.
  all: try reflexivity.
  all: specialize (Hmain Hscreen); inversion Hmain; subst; try done.
  all: js_decided; lia.
Qed.

Lemma handler_complete_screen (ev : Event) (w : World) :
  (screen (state w) = complete → allExercisesComplete env (state w) = true) →
  screen (state (exec (handler env ev) w)) = complete →
  allExercisesComplete env (state (exec (handler env ev) w)) = true.
Proof.
  intros Hc.
  destruct ev; js_run; intros Hscreen; try discriminate Hscreen.
  all: first [assumption | exact (Hc Hscreen)].
Qed.

(** [allExercisesComplete] holds exactly when every exercise has a slot at
    or above its [setCount]. *)
Lemma allExercisesComplete_spec (s : State) :
  allExercisesComplete env s = true ↔ all_complete env s.
Proof.
  unfold allExercisesComplete, all_complete.
  rewrite <- Is_true_true, forallb_True, Forall_lookup. split.
  - intros Hall i ex Hex.
    specialize (Hall i (i, ex)). rewrite list_lookup_imap, Hex in Hall.
    specialize (Hall eq_refl). cbn in Hall.
    destruct (completedSets s !! i) as [c|]; [|done].
    cbn in Hall. exists c. split; [done|]. by apply bool_decide_unpack in Hall.
  - intros Hall i [j ex]. rewrite list_lookup_imap.
    destruct (exercises env !! i) as [ex'|] eqn:Hex; [|done].
    cbn. intros [= <- <-]. destruct (Hall i ex' Hex) as (c & -> & Hle).
    cbn. by apply bool_decide_pack.
Qed.

End Screens.

(** ** The lock *)

Section Lock.

Context (env : Env).

Lemma sound_selection_is_locked (s : State) (idx : nat) :
  selection_sound env s →
  selectedExercise s = Some idx →
  ∃ ex c,
    exerciseByIndex env idx = Some ex ∧
    completedSets s !! idx = Some c ∧
    c < setCount ex ∧
    lockedExerciseIndex env s = Some idx.
Proof.
  intros (_ & _ & Hopen & _) Hsel.
  destruct (Hopen idx Hsel) as (ex & c & Hex & Hc & Hlt).
  exists ex, c. split_and!; [done..|].
  unfold lockedExerciseIndex. rewrite Hsel, Hex, Hc. cbn.
  by rewrite bool_decide_eq_true_2.
Qed.

(** X1. In every reachable state the selected exercise exists, has sets
    left, and is the locked one: [lockedExerciseIndex()] returns the
    selection. *)
Theorem selected_exercise_is_locked (w : World) (idx : nat) :
  reachable env w →
  selectedExercise (state w) = Some idx →
  ∃ ex c,
    exerciseByIndex env idx = Some ex ∧
    completedSets (state w) !! idx = Some c ∧
    c < setCount ex ∧
    lockedExerciseIndex env (state w) = Some idx.
Proof.
  intros Hreach Hsel. apply sound_selection_is_locked; [|done].
  by apply reachable_selection_sound.
Qed.

Lemma chooseExercise_locked_out (w : World) (idx index : nat) (ex : Exercise) :
  lockedExerciseIndex env (state w) = Some idx →
  exerciseByIndex env idx = Some ex →
  index ≠ idx →
  exec (chooseExercise env index) w =
    {| state := state w; intervals := intervals w; nextId := nextId w;
       toasts := toasts w ++ ["Finish " +:+ name ex +:+ " first"] |}.
Proof.
  intros Hlock Hex Hne. js_unfold. rewrite Hlock.
  rewrite bool_decide_eq_true_2 by done. by rewrite Hex.
Qed.

(** X2. While an exercise is selected, choosing any other index is
    refused: the state and the countdowns stay as they are and the toast
    names the exercise to finish first. *)
Theorem lock_blocks_other_exercises (w : World) (idx index : nat) (ex : Exercise) :
  reachable env w →
  selectedExercise (state w) = Some idx →
  exerciseByIndex env idx = Some ex →
  index ≠ idx →
  let w' := exec (chooseExercise env index) w in
  state w' = state w ∧
  intervals w' = intervals w ∧
  toasts w' = toasts w ++ ["Finish " +:+ name ex +:+ " first"].
Proof.
  intros Hreach Hsel Hex Hne w'.
  destruct (sound_selection_is_locked (state w) idx) as (ex' & c & Hex' & _ & _ & Hlock);
    [by apply reachable_selection_sound|done|].
  subst w'. by rewrite (chooseExercise_locked_out w idx index ex).
Qed.

(** X3. Choosing an index that is out of range or an exercise that has
    all its sets leaves the state and the countdowns as they are; when
    nothing is locked, the out-of-range index is ignored without a
    toast. *)
Theorem chooseExercise_rejects_invalid (w : World) (index : nat) :
  (exerciseByIndex env index = None ∨
   ∃ ex, exerciseByIndex env index = Some ex ∧
         ge_undef (completedSets (state w) !! index) (setCount ex) = true) →
  let w' := exec (chooseExercise env index) w in
  state w' = state w ∧
  intervals w' = intervals w ∧
  (exerciseByIndex env index = None → lockedExerciseIndex env (state w) = None →
   w' = w).
Proof.
  intros Hinv w'. subst w'.
  js_run; destruct Hinv as [?|(? & ? & ?)]; simplify_eq; try done; congruence.
Qed.

(** X4. An accepted choice selects the exercise, shows its progress
    screen, prefills the form with the target reps and the default weight,
    clears the per-set rest fields, and touches neither the logged sets
    nor the counters nor the countdowns. *)
Theorem chooseExercise_accepts (w : World) (index : nat) (ex : Exercise) :
  exerciseByIndex env index = Some ex →
  ge_undef (completedSets (state w) !! index) (setCount ex) = false →
  (lockedExerciseIndex env (state w) = None ∨
   lockedExerciseIndex env (state w) = Some index) →
  let s := state w in
  let w' := exec (chooseExercise env index) w in
  state w' =
    {| screen := progress;
       startedAt := startedAt s;
       selectedExercise := Some index;
       completedSets := completedSets s;
       entries := entries s;
       currentInput := {| reps := pretty (targetReps ex);
                          weight := pretty (defaultWeight ex) |};
       restRemaining := 0;
       restTimerStarted := false;
       restTimerId := restTimerId s;
       inputSubmitted := false;
       rank := rank s; rankXp := rankXp s; streak := streak s;
       currency := currency s; sessionPoints := sessionPoints s |} ∧
  intervals w' = intervals w ∧
  toasts w' = toasts w.
Proof.
  intros Hex Hge Hlock s w'. subst s w'.
  js_run; destruct Hlock; simplify_eq; try done; try congruence.
  all: js_decided; congruence.
Qed.

End Lock.

(** ** Countdowns *)

Section Countdowns.

Context (env : Env).

(** X5. In every reachable world at most one countdown is scheduled, and
    it is the one whose handle [state.restTimerId] holds. *)
Theorem at_most_one_countdown (w : World) (id : TimerId) :
  reachable env w →
  id ∈ intervals w ↔ restTimerId (state w) = Some id.
Proof.
  intros Hown%reachable_timers_owned. unfold timers_owned in Hown.
  rewrite Hown. destruct (restTimerId (state w)) as [id'|]; set_solver.
Qed.



Lemma reachable_rest_bounded (w : World) :
  workout_valid env → reachable env w → rest_bounded env (state w).
Proof.
  intros Hv. induction 1 as [|w w' Hw IH Hstep]; [done|].
  destruct Hstep. apply handler_rest_bounded; [done| |done].
  by apply reachable_selection_sound.
Qed.

(** X8. With no negative [restSeconds] in the workout, the remaining rest
    is never negative and never above the rest of the selected exercise,
    and it is zero whenever no exercise is selected. *)
Theorem restRemaining_within_rest (w : World) :
  workout_valid env →
  reachable env w →
  0 ≤ restRemaining (state w) ∧
  match selectedExercise (state w) with
  | Some idx => ∃ ex, exerciseByIndex env idx = Some ex ∧
                      restRemaining (state w) ≤ restSeconds ex
  | None => restRemaining (state w) = 0
  end.
Proof.
  intros Hv Hreach. pose proof (reachable_rest_bounded w Hv Hreach) as Hb.
  unfold rest_bounded in Hb.
  destruct (selectedExercise (state w)) as [idx|].
  - destruct Hb as (ex & Hex & Hb). split; [lia|]. exists ex. split; [done|lia].
  - split; [lia|done].
Qed.

(** One firing with more than a second left only takes a second off. *)
Lemma restTick_decrements (w : World) :
  1 < restRemaining (state w) →
  exec (restTick env) w =
    set_state (set_restRemaining (restRemaining (state w) - 1) (state w)) w.
Proof. intros Hr. js_run; js_decided; try lia. done. Qed.

(** The firing with one second left takes it off and hands over to
    [onRestTimerFinished]. *)
Lemma restTick_finishes (w : World) :
  restRemaining (state w) = 1 →
  exec (restTick env) w =
    exec (onRestTimerFinished env) (set_state (set_restRemaining 0 (state w)) w).
Proof.
  intros Hr. destruct w as [[] ? ? ?]. cbn in Hr. subst.
  unfold restTick, exec, bind, get, assign, render, ret. cbn.
  repeat (rewrite bool_decide_eq_true_2 by lia; cbn). reflexivity.
Qed.

(** X9. A countdown with [n + 1] seconds left only counts down at its
    first [n] firings, leaving everything but [restRemaining] alone, and
    calls [onRestTimerFinished] once, at firing [n + 1], with no rest
    left. *)
Theorem countdown_runs_to_zero (n : nat) (w : World) :
  restRemaining (state w) = Z.of_nat n + 1 →
  Nat.iter n (exec (restTick env)) w =
    set_state (set_restRemaining 1 (state w)) w ∧
  Nat.iter (S n) (exec (restTick env)) w =
    exec (onRestTimerFinished env) (set_state (set_restRemaining 0 (state w)) w).
Proof.
  intros Hr.
  assert (∀ k w0, restRemaining (state w0) = Z.of_nat k + 1 →
                  Nat.iter k (exec (restTick env)) w0 =
                    set_state (set_restRemaining 1 (state w0)) w0) as Hiter.
  { clear. induction k as [|k IH]; intros w0 Hr0.
    - destruct w0 as [[] ? ? ?]. cbn in *. subst. reflexivity.
    - rewrite Nat.iter_succ_r, restTick_decrements by lia.
      rewrite IH by (cbn; lia). destruct w0 as [[] ? ? ?]. reflexivity. }
  split; [by apply Hiter|].
  rewrite Nat.iter_succ, (Hiter n w Hr).
  rewrite restTick_finishes by (by destruct w as [[] ? ? ?]).
  destruct w as [[] ? ? ?]. reflexivity.
Qed.

(** X10. Whatever the state, a firing with at most one second left stops
    the countdown: afterwards the state holds no timer handle and the
    handle it held is no longer scheduled. *)
Theorem last_firing_stops_the_countdown (w : World) :
  restRemaining (state w) ≤ 1 →
  let w' := exec (restTick env) w in
  restTimerId (state w') = None ∧
  intervals w' = match restTimerId (state w) with
                 | Some id => intervals w ∖ {[ id ]}
                 | None => intervals w
                 end.
Proof. intros Hr w'. subst w'. js_run; js_decided; try lia; done. Qed.

End Countdowns.

(** ** What the screens and the counters tell *)

Section Session.

Context (env : Env).

Lemma reachable_main_pristine (w : World) :
  reachable env w → screen (state w) = main → state w = initial_state env.
Proof.
  induction 1 as [|w w' Hw IH Hstep]; [done|].
  destruct Hstep. by apply handler_main_pristine.
Qed.


Lemma reachable_complete_screen (w : World) :
  reachable env w →
  screen (state w) = complete → allExercisesComplete env (state w) = true.
Proof.
  induction 1 as [|w w' Hw IH Hstep]; [done|].
  destruct Hstep. by apply handler_complete_screen.
Qed.

Lemma reachable_complete_all_done (w : World) (i : nat) (ex : Exercise) :
  setCounts_nonneg env →
  reachable env w →
  screen (state w) = complete →
  exercises env !! i = Some ex →
  completedSets (state w) !! i = Some (setCount ex) ∧
  selectedExercise (state w) = None.
Proof.
  intros Hwf Hreach Hscreen Hex.
  pose proof (reachable_complete_screen w Hreach Hscreen) as Hall.
  apply allExercisesComplete_spec in Hall.
  destruct (reachable_sets_bounded env w Hwf Hreach) as [_ Hb].
  split.
  - destruct (Hall i ex Hex) as (c & Hc & Hge).
    specialize (Hb i c ex Hc Hex). rewrite Hc. f_equal. lia.
  - destruct (selectedExercise (state w)) as [idx|] eqn:Hsel; [|done].
    destruct (sound_selection_is_locked env (state w) idx)
      as (ex' & c & Hex' & Hc & Hlt & _);
      [by apply reachable_selection_sound|done|].
    destruct (Hall idx ex' Hex') as (c' & Hc' & Hge).
    assert (c' = c) as -> by congruence. lia.
Qed.

(** X12. The completion screen only shows a finished workout: in a
    reachable state on [complete] nothing is selected and, when no
    [setCount] is negative, every exercise has exactly [setCount]
    completed sets. *)
Theorem complete_screen_means_all_done (w : World) (i : nat) (ex : Exercise) :
  setCounts_nonneg env →
  reachable env w →
  screen (state w) = complete →
  exercises env !! i = Some ex →
  completedSets (state w) !! i = Some (setCount ex) ∧
  selectedExercise (state w) = None.
Proof. apply reachable_complete_all_done. Qed.

(** X19. When a session in which no exercise is chosen while a submitted
    set waits (every session of the page is one) reaches the completion
    screen, the log of every exercise holds exactly [setCount] entries:
    the summary shows each exercise as done in full. *)
Theorem complete_log_is_full (w : World) (i : nat) (ex : Exercise) :
  setCounts_nonneg env →
  reachable_orderly env w →
  screen (state w) = complete →
  exercises env !! i = Some ex →
  ∃ es, entries (state w) !! i = Some es ∧ Z.of_nat (length es) = setCount ex.
Proof.
  intros Hwf Hord Hscreen Hex.
  destruct (reachable_complete_all_done w i ex Hwf
              (reachable_orderly_reachable env w Hord) Hscreen Hex) as [Hc Hsel].
  pose proof (reachable_orderly_log_consistent env w Hord)
    as (_ & Hle & _ & _ & Hmatch).
  destruct (lookup_lt_is_Some_2 (entries (state w)) i) as [es Hes].
  { rewrite Hle. by eapply lookup_lt_Some. }
  exists es. split; [done|].
  rewrite (Hmatch i es _ Hes Hc). unfold submitted_here. rewrite Hsel.
  rewrite bool_decide_eq_false_2 by done. rewrite andb_false_r. lia.
Qed.

(** [objectiveText()] never fails, whatever the state: a locked index
    always has its exercise. *)
Lemma objectiveText_total (objectiveDone : string) (s : State) :
  is_Some (objectiveText env objectiveDone s).
Proof.
  unfold objectiveText, lockedExerciseIndex.
  repeat case_match; simplify_eq; cbn; eauto.
  all: match goal with H : exerciseByIndex _ _ = _ |- _ => rewrite H in * end;
    simplify_eq; cbn; eauto.
Qed.

(** X20. [objectiveText()] never throws, and in a reachable state with an
    exercise selected it reads "<name>: Set <c + 1> of <setCount>" for the
    selected exercise with [c] completed sets, where the set shown is at
    most [setCount]. *)
Theorem objectiveText_names_the_open_set
        (objectiveDone : string) (w : World) (idx : nat) (ex : Exercise) (c : Z) :
  reachable env w →
  selectedExercise (state w) = Some idx →
  exerciseByIndex env idx = Some ex →
  completedSets (state w) !! idx = Some c →
  (∀ s, is_Some (objectiveText env objectiveDone s)) ∧
  objectiveText env objectiveDone (state w)
  = Some (name ex +:+ ": Set " +:+ pretty (c + 1) +:+ " of " +:+ pretty (setCount ex)) ∧
  c + 1 ≤ setCount ex.
Proof.
  intros Hreach Hsel Hex Hc.
  split; [intros s; apply objectiveText_total|].
  destruct (sound_selection_is_locked env (state w) idx)
    as (ex' & c' & Hex' & Hc' & Hlt & Hlock);
    [by apply reachable_selection_sound|done|].
  assert (ex' = ex) as -> by congruence.
  assert (c' = c) as -> by congruence.
  split; [|lia].
  unfold objectiveText. rewrite Hlock, Hex, Hc. cbn.
  destruct (allExercisesComplete env (state w)) eqn:Hall; [|done].
  apply allExercisesComplete_spec in Hall.
  destruct (Hall idx ex Hex) as (c'' & Hc'' & Hge).
  assert (c'' = c) as -> by congruence. lia.
Qed.

Lemma reachable_counters_account (w : World) :
  reachable env w → counters_account env (state w).
Proof.
  induction 1 as [|w w' Hw IH Hstep].
  - unfold counters_account. cbn. split; [lia|done].
  - destruct Hstep. by apply handler_counters_account.
Qed.

(** X13. In every reachable state the rank and its progress hold exactly
    the initial rank and progress plus the points of the session,
    [100 * rank + rankXp = 100 * rank0 + rankXp0 + sessionPoints], and the
    streak is the configured one. *)
Theorem rank_holds_the_session_points (w : World) :
  reachable env w →
  100 * rank (state w) + rankXp (state w)
  = 100 * initial_rank env + initial_rankXp env + sessionPoints (state w) ∧
  streak (state w) = initial_streak env.
Proof. apply reachable_counters_account. Qed.

Lemma handler_rankXp_range (ev : Event) (w : World) :
  0 ≤ initial_rankXp env < 100 →
  0 ≤ setPoints (rewards env) → 0 ≤ exercisePoints (rewards env) →
  0 ≤ rankXp (state w) < 100 →
  0 ≤ rankXp (state (exec (handler env ev) w)) < 100.
Proof.
  intros Hinit Hset Hex Hr.
  destruct ev; js_run_account; lia.
Qed.

(** X14. When the configured progress starts in [0,100) and the two
    point rewards are not negative, [rankXp] is in [0,100) in every
    reachable state. *)
Theorem rankXp_stays_in_range (w : World) :
  0 ≤ initial_rankXp env < 100 →
  0 ≤ setPoints (rewards env) → 0 ≤ exercisePoints (rewards env) →
  reachable env w →
  0 ≤ rankXp (state w) < 100.
Proof.
  intros Hinit Hset Hex. induction 1 as [|w w' Hw IH Hstep]; [done|].
  destruct Hstep. by apply handler_rankXp_range.
Qed.

End Session.

(** ** Points for sets and exercises *)

Lemma sum_list_length_alter_snoc {A} (l : list (list A)) (idx : nat) (es : list A) (e : A) :
  l !! idx = Some es →
  sum_list (length <$> alter (λ es, es ++ [e]) idx l) = S (sum_list (length <$> l)).
Proof.
  revert idx. induction l as [|x l IH]; intros [|idx] Hl; try done; cbn in *.
  - injection Hl as ->. rewrite length_app. cbn. lia.
  - rewrite (IH idx Hl). lia.
Qed.

Lemma finished_alter_succ (cs : list Z) (exs : list Exercise) (idx : nat) (c : Z) (ex : Exercise) :
  cs !! idx = Some c → exs !! idx = Some ex → c < setCount ex →
  length (filter (λ p, setCount p.2 ≤ p.1) (zip (alter (λ n, n + 1) idx cs) exs))
  = Nat.add (length (filter (λ p, setCount p.2 ≤ p.1) (zip cs exs)))
            (if bool_decide (setCount ex ≤ c + 1) then 1%nat else 0%nat).
Proof.
  revert exs idx. induction cs as [|c0 cs IH]; intros [|ex0 exs] [|idx] Hc Hex Hlt;
    try done; cbn in Hc, Hex.
  - injection Hc as ->. injection Hex as ->.
    change (alter (λ n, n + 1) 0%nat (c :: cs)) with ((c + 1) :: cs).
    cbn [zip_with]. rewrite !filter_cons. cbn [fst snd].
    repeat case_decide; case_bool_decide; cbn; lia.
  - change (alter (λ n, n + 1) (S idx) (c0 :: cs))
      with (c0 :: alter (λ n, n + 1) idx cs).
    cbn [zip_with]. rewrite !filter_cons. cbn [fst snd].
    pose proof (IH exs idx Hc Hex Hlt) as IH'.
    destruct (decide (setCount ex0 ≤ c0)); [change (length (?x :: ?l)) with (S (length l))|];
      rewrite IH'; lia.
Qed.

Lemma finished_replicate_zero (exs : list Exercise) (n : nat) :
  Forall (λ ex, 0 < setCount ex ∧ 0 ≤ restSeconds ex) exs →
  filter (λ p, setCount p.2 ≤ p.1) (zip (replicate n 0) exs) = [].
Proof.
  intros Hv. revert n. induction Hv as [|ex exs [Hpos _] _ IH]; intros [|n]; try done.
  cbn [replicate zip zip_with]. rewrite filter_cons. cbn [fst snd].
  rewrite decide_False by lia. apply IH.
Qed.

Lemma sum_list_replicate_nil {A} (n : nat) :
  sum_list (length <$> replicate n (@nil A)) = 0%nat.
Proof. induction n; cbn; [done|]. by rewrite IHn. Qed.

Section Earnings.

Context (env : Env).

Lemma points_earned_keep (s s' : State) :
  points_earned env s →
  entries s' = entries s →
  completedSets s' = completedSets s →
  sessionPoints s' = sessionPoints s →
  currency s' = currency s →
  points_earned env s'.
Proof.
  unfold points_earned, total_entries, finished_exercises.
  intros H -> -> -> ->. exact H.
Qed.

Lemma points_earned_reset (s' : State) :
  workout_valid env →
  entries s' = replicate (length (exercises env)) [] →
  completedSets s' = replicate (length (exercises env)) 0 →
  sessionPoints s' = 0 →
  currency s' = initial_currency env →
  points_earned env s'.
Proof.
  unfold points_earned, total_entries, finished_exercises.
  intros Hv -> -> -> ->.
  rewrite sum_list_replicate_nil, finished_replicate_zero by done. cbn. lia.
Qed.

Lemma points_earned_record (s s' : State) (idx : nat) (l : list SetEntry) (e : SetEntry) :
  points_earned env s →
  entries s !! idx = Some l →
  entries s' = alter (λ es, es ++ [e]) idx (entries s) →
  completedSets s' = completedSets s →
  sessionPoints s' = sessionPoints s + setPoints (rewards env) →
  currency s' = currency s + setCurrency (rewards env) →
  points_earned env s'.
Proof.
  unfold points_earned, total_entries, finished_exercises.
  intros [Hp Hc] Hl -> -> -> ->.
  rewrite (sum_list_length_alter_snoc _ _ _ _ Hl). lia.
Qed.

Lemma points_earned_advance (s s' : State) (idx : nat) (ex : Exercise) (g : bool) :
  points_earned env s →
  selection_sound env s →
  selectedExercise s = Some idx →
  exerciseByIndex env idx = Some ex →
  ge_undef (alter (λ n, n + 1) idx (completedSets s) !! idx) (setCount ex) = g →
  completedSets s' = alter (λ n, n + 1) idx (completedSets s) →
  entries s' = entries s →
  sessionPoints s' = sessionPoints s + (if g then exercisePoints (rewards env) else 0) →
  currency s' = currency s + (if g then exerciseCurrency (rewards env) else 0) →
  points_earned env s'.
Proof.
  unfold points_earned, total_entries, finished_exercises.
  intros [Hp Hc] (_ & _ & Hopen & _) Hsel Hex Hg -> -> -> ->.
  destruct (Hopen idx Hsel) as (ex' & c & Hex' & Hcs & Hlt).
  assert (ex' = ex) as -> by congruence.
  rewrite (finished_alter_succ _ _ idx c ex Hcs Hex Hlt).
  rewrite list_lookup_alter_eq, Hcs in Hg. cbn in Hg. subst g.
  destruct (bool_decide (setCount ex ≤ c + 1)); lia.
Qed.

Lemma points_earned_record_advance
      (s s' : State) (idx : nat) (l : list SetEntry) (e : SetEntry) (ex : Exercise) (g : bool) :
  points_earned env s →
  selection_sound env s →
  selectedExercise s = Some idx →
  entries s !! idx = Some l →
  exerciseByIndex env idx = Some ex →
  ge_undef (alter (λ n, n + 1) idx (completedSets s) !! idx) (setCount ex) = g →
  completedSets s' = alter (λ n, n + 1) idx (completedSets s) →
  entries s' = alter (λ es, es ++ [e]) idx (entries s) →
  sessionPoints s'
  = sessionPoints s + setPoints (rewards env)
    + (if g then exercisePoints (rewards env) else 0) →
  currency s'
  = currency s + setCurrency (rewards env)
    + (if g then exerciseCurrency (rewards env) else 0) →
  points_earned env s'.
Proof.
  intros Hp Hs Hsel Hl Hex Hg Hcs' Hes' Hsp' Hcur'.
  set (s1 := set_currency (currency s + setCurrency (rewards env))
               (set_sessionPoints (sessionPoints s + setPoints (rewards env))
                  (set_entries (alter (λ es, es ++ [e]) idx (entries s)) s))).
  eapply (points_earned_advance s1 s' idx ex g);
    [| | |exact Hex|exact Hg|exact Hcs'|exact Hes'|exact Hsp'|exact Hcur'].
  - eapply points_earned_record; [exact Hp|exact Hl|reflexivity..].
  - eapply selection_sound_keep; [exact Hs|reflexivity|reflexivity| |].
    + cbn. by rewrite length_alter.
    + intros _. right. cbn. by rewrite Hsel.
  - exact Hsel.
Qed.

End Earnings.

Ltac solve_points_earned :=
  first
    [ eapply points_earned_keep; [eassumption | reflexivity ..]
    | eapply points_earned_reset; [eassumption | reflexivity ..]
    | eapply points_earned_record;
        [eassumption | eassumption | reflexivity | reflexivity | cbn; lia | cbn; lia]
    | eapply points_earned_advance;
        [eassumption | eassumption | reflexivity | eassumption | eassumption
         | reflexivity | reflexivity | cbn; lia | cbn; lia]
    | eapply points_earned_record_advance;
        [eassumption | eassumption | reflexivity | eassumption | eassumption
         | eassumption | reflexivity | reflexivity | cbn; lia | cbn; lia]
    | selection_absurd
    | submitted_absurd ].

Section EarningsInvariant.

Context (env : Env).

Lemma handler_points_earned (ev : Event) (w : World) :
  workout_valid env →
  selection_sound env (state w) →
  points_earned env (state w) →
  points_earned env (state (exec (handler env ev) w)).
Proof.
  intros Hv Hs Hp. destruct ev; js_run; solve_points_earned.
Qed.

Lemma reachable_points_earned (w : World) :
  workout_valid env → reachable env w → points_earned env (state w).
Proof.
  intros Hv. induction 1 as [|w w' Hw IH Hstep].
  - by apply points_earned_reset.
  - destruct Hstep. apply handler_points_earned; [done| |done].
    by apply reachable_selection_sound.
Qed.

(** X15. When every exercise asks for at least one set, the session
    points of a reachable state are the set reward times the number of
    logged entries plus the exercise reward times the number of finished
    exercises, and the currency is the initial currency plus the same
    count in currency rewards. *)
Theorem points_are_what_was_earned (w : World) :
  workout_valid env →
  reachable env w →
  sessionPoints (state w)
  = setPoints (rewards env) * total_entries (state w)
    + exercisePoints (rewards env) * finished_exercises env (state w) ∧
  currency (state w)
  = initial_currency env
    + setCurrency (rewards env) * total_entries (state w)
    + exerciseCurrency (rewards env) * finished_exercises env (state w).
Proof. apply reachable_points_earned. Qed.

End EarningsInvariant.

(** ** Sessions driven through the page *)

Section Page.

Context (env : Env).

(** What an enabled tile of the circuit says about its exercise. *)
Lemma renderCircuit_enabled_tile (s : State) (index : nat) (tiles : list Tile) :
  renderCircuit env s = CircuitPage tiles →
  existsb (λ t, bool_decide (tile_index t = index) && negb (tile_disabled t)) tiles = true →
  ∃ ex, exerciseByIndex env index = Some ex ∧
        ge_undef (completedSets s !! index) (setCount ex) = false ∧
        (lockedExerciseIndex env s = None ∨ lockedExerciseIndex env s = Some index).
Proof.
  unfold renderCircuit. intros [= <-] Hex.
  apply Is_true_true, existb_True, Exists_exists in Hex as (t & Ht & Hen).
  apply list_elem_of_lookup in Ht as [i Ht].
  rewrite list_lookup_imap in Ht.
  destruct (exercises env !! i) as [ex|] eqn:Hi; [|done].
  cbn in Ht. injection Ht as <-. cbn in Hen.
  apply andb_prop_elim in Hen as [Hidx Hdis].
  apply bool_decide_unpack in Hidx. subst i.
  apply negb_prop_elim, Is_true_false in Hdis.
  apply orb_false_iff in Hdis as [Hdone Hlock].
  exists ex. split_and!; [done|done|].
  destruct (lockedExerciseIndex env s) as [l|]; [|by left].
  right. apply bool_decide_eq_false in Hlock. f_equal.
  by destruct (decide (l = index)).
Qed.

(** What the page asks of the state before it offers an event. *)
Lemma offers_inv (w : World) (ev : Event) :
  offers env w ev = true →
  match ev with
  | StartWorkout _ => screen (state w) = main
  | SelectExercise index =>
      (screen (state w) = circuit ∨
       (screen (state w) = progress ∨ screen (state w) = input) ∧
       (∀ idx, selectedExercise (state w) = Some idx → exerciseByIndex env idx = None)) ∧
      ∃ ex, exerciseByIndex env index = Some ex ∧
            ge_undef (completedSets (state w) !! index) (setCount ex) = false ∧
            (lockedExerciseIndex env (state w) = None ∨
             lockedExerciseIndex env (state w) = Some index)
  | EnterResult =>
      screen (state w) = progress ∧
      ∃ idx ex, selectedExercise (state w) = Some idx ∧ exerciseByIndex env idx = Some ex
  | SubmitResult _ _ _ =>
      screen (state w) = input ∧
      ∃ idx ex, selectedExercise (state w) = Some idx ∧ exerciseByIndex env idx = Some ex
  | Restart => screen (state w) = complete
  | TimerFires id => id ∈ intervals w
  end.
Proof.
  unfold offers, renderScreen, renderProgress, renderInput.
  destruct ev; intros Hoff.
  - unfold renderCircuit in Hoff.
    destruct (screen (state w)); repeat case_match; done.
  - destruct (screen (state w)) eqn:Hscr; try done.
    + split; [by left|].
      by eapply renderCircuit_enabled_tile; [reflexivity|].
    + destruct (selectedExercise (state w)) as [idx|] eqn:Hsel;
        [destruct (exerciseByIndex env idx) eqn:Hex; [done|]|].
      all: split; [right; split; [by left|]; by intros ? [= <-] || by intros ? [=]|].
      all: by eapply renderCircuit_enabled_tile; [reflexivity|].
    + destruct (selectedExercise (state w)) as [idx|] eqn:Hsel;
        [destruct (exerciseByIndex env idx) eqn:Hex; [done|]|].
      all: split; [right; split; [by right|]; by intros ? [= <-] || by intros ? [=]|].
      all: by eapply renderCircuit_enabled_tile; [reflexivity|].
  - unfold renderCircuit in Hoff.
    destruct (screen (state w)); repeat case_match; try done. by eauto.
  - unfold renderCircuit in Hoff.
    destruct (screen (state w)); repeat case_match; try done. by eauto.
  - unfold renderCircuit in Hoff.
    destruct (screen (state w)); repeat case_match; done.
  - repeat case_match; by apply bool_decide_eq_true in Hoff.
Qed.

Lemma handler_page_consistent (ev : Event) (w : World) :
  offers env w ev = true →
  selection_sound env (state w) →
  page_consistent (state w) →
  page_consistent (state (exec (handler env ev) w)).
Proof.
  unfold page_consistent. intros Hoff%offers_inv Hs [H1 H2].
  destruct ev.
  - js_run; naive_solver.
  - destruct Hoff as [Hscr _]. js_run; try naive_solver.
  - destruct Hoff as (Hscr & idx & ex & Hsel & Hex). js_run; try naive_solver.
  - destruct Hoff as (Hscr & idx & ex & Hsel & Hex).
    js_run; try naive_solver; try selection_absurd.
  - js_run; naive_solver.
  - js_run; try naive_solver; try selection_absurd; try submitted_absurd.
Qed.

Lemma offers_enabled (w : World) (ev : Event) :
  offers env w ev = true → enabled w ev = true.
Proof.
  destruct ev; try done; intros Hoff%offers_inv; by apply bool_decide_eq_true_2.
Qed.

Lemma reachable_on_page_reachable (w : World) :
  reachable_on_page env w → reachable env w.
Proof.
  induction 1 as [|w ev _ IH Hoff]; [apply reachable_initial|].
  eapply reachable_step; [exact IH|]. constructor. by apply offers_enabled.
Qed.

Lemma reachable_on_page_consistent (w : World) :
  reachable_on_page env w → page_consistent (state w).
Proof.
  induction 1 as [|w ev Hw IH Hoff].
  - split; [done|]. done.
  - apply handler_page_consistent; [done| |done].
    by apply reachable_selection_sound, reachable_on_page_reachable.
Qed.

(** On the page an exercise is never chosen while a submitted set waits:
    the sessions of the page are orderly. *)
Lemma reachable_on_page_orderly (w : World) :
  reachable_on_page env w → reachable_orderly env w.
Proof.
  induction 1 as [|w ev Hw IH Hoff]; [apply orderly_initial|].
  apply orderly_step; [exact IH|by apply offers_enabled|].
  destruct ev; try done. cbn.
  destruct (reachable_on_page_consistent w Hw) as [Hsub _].
  apply offers_inv in Hoff as [Hscr _].
  destruct (inputSubmitted (state w)); [|done].
  specialize (Hsub eq_refl). rewrite Hsub in Hscr.
  by destruct Hscr as [?|[[?|?] _]].
Qed.

(** X16. In a session driven through the page, for every exercise [i],
    [entries[i].length] is [completedSets[i] + 1] while [i] is selected
    with its set submitted and [completedSets[i]] otherwise, and it never
    exceeds [setCount]. *)
Theorem page_entries_follow_completedSets (w : World) (i : nat) (ex : Exercise) :
  setCounts_nonneg env →
  reachable_on_page env w →
  exercises env !! i = Some ex →
  ∃ es c,
    entries (state w) !! i = Some es ∧
    completedSets (state w) !! i = Some c ∧
    Z.of_nat (length es) = c + (if submitted_here (state w) i then 1 else 0) ∧
    Z.of_nat (length es) ≤ setCount ex.
Proof.
  intros Hwf Hpage Hex.
  pose proof (reachable_on_page_orderly w Hpage) as Hord.
  pose proof (reachable_orderly_log_consistent env w Hord)
    as (Hlc & Hle & Hopen & _ & Hmatch).
  destruct (reachable_sets_bounded env w Hwf (reachable_on_page_reachable w Hpage))
    as [_ Hb].
  destruct (lookup_lt_is_Some_2 (entries (state w)) i) as [es Hes].
  { rewrite Hle. by eapply lookup_lt_Some. }
  destruct (lookup_lt_is_Some_2 (completedSets (state w)) i) as [c Hc].
  { rewrite Hlc. by eapply lookup_lt_Some. }
  exists es, c. specialize (Hmatch i es c Hes Hc). split_and!; [done..|].
  rewrite Hmatch. unfold submitted_here.
  destruct (inputSubmitted (state w)); cbn; [|specialize (Hb i c ex Hc Hex); lia].
  case_bool_decide as Hsel; [|specialize (Hb i c ex Hc Hex); lia].
  destruct (Hopen i Hsel) as (ex' & c' & Hex' & Hc' & Hlt).
  unfold exerciseByIndex in Hex'.
  assert (ex' = ex) as -> by congruence.
  assert (c' = c) as -> by congruence. lia.
Qed.

(** X17. On the page a tile can be pressed only while nothing is
    selected, and pressing it always selects its exercise: the lock check
    of [chooseExercise] never refuses a press. *)
Theorem page_choice_always_selects (w : World) (index : nat) :
  reachable_on_page env w →
  offers env w (SelectExercise index) = true →
  selectedExercise (state w) = None ∧
  selectedExercise (state (exec (chooseExercise env index) w)) = Some index ∧
  screen (state (exec (chooseExercise env index) w)) = progress.
Proof.
  intros Hpage Hoff.
  destruct (reachable_on_page_consistent w Hpage) as [_ Hsel].
  pose proof (reachable_selection_sound env w (reachable_on_page_reachable w Hpage)) as Hs.
  apply offers_inv in Hoff as (Hscr & ex & Hex & Hge & _).
  assert (selectedExercise (state w) = None) as Hnone.
  { destruct Hscr as [Hc|[_ Hmiss]]; [by apply Hsel; right; left|].
    destruct (selectedExercise (state w)) as [idx|] eqn:Hidx; [|done].
    destruct (sound_selection_is_locked env (state w) idx Hs Hidx) as (ex' & _ & Hex' & _).
    by rewrite (Hmiss idx eq_refl) in Hex'. }
  split; [done|].
  assert (lockedExerciseIndex env (state w) = None) as Hlock
    by (unfold lockedExerciseIndex; by rewrite Hnone).
  js_unfold. rewrite Hlock, Hex. cbn in Hge. rewrite Hge. done.
Qed.

(** X18. On the page the result form is only there for a selected
    exercise whose current set is not yet submitted, so a submission with
    a finite [reps > 0] and a finite [weight >= 0] is always recorded. *)
Theorem page_submission_is_recorded
        (w : World) (reps weight : JsNumber) (at_ : string) :
  reachable_on_page env w →
  offers env w (SubmitResult reps weight at_) = true →
  valid_submission reps weight = true →
  inputSubmitted (state w) = false ∧
  ∃ idx es c,
    selectedExercise (state w) = Some idx ∧
    entries (state w) !! idx = Some es ∧
    completedSets (state w) !! idx = Some c ∧
    entries (state (exec (submitSet env reps weight at_) w)) !! idx
    = Some (es ++ [entry (Some (c + 1)) reps weight at_]).
Proof.
  intros Hpage Hoff Hvalid.
  destruct (reachable_on_page_consistent w Hpage) as [Hsub _].
  pose proof (reachable_selection_sound env w (reachable_on_page_reachable w Hpage)) as Hs.
  apply offers_inv in Hoff as (Hscr & idx & ex & Hsel & Hex).
  assert (inputSubmitted (state w) = false) as Hopen.
  { destruct (inputSubmitted (state w)); [|done].
    specialize (Hsub eq_refl). by rewrite Hsub in Hscr. }
  split; [done|].
  destruct (sound_selection_is_locked env (state w) idx Hs Hsel) as (_ & c & _ & Hc & _).
  destruct Hs as (_ & Hle & _).
  destruct (lookup_lt_is_Some_2 (entries (state w)) idx) as [es Hes].
  { rewrite Hle. by eapply lookup_lt_Some. }
  exists idx, es, c. split_and!; [done..|].
  rewrite (submitSet_accepted env w reps weight at_ idx es) by done.
  by rewrite list_lookup_alter_eq, Hes, Hc.
Qed.

End Page.

(** ** Times on the page *)

Lemma string_app_cons (a : Ascii.ascii) (s t : string) :
  String a s +:+ t = String a (s +:+ t).
Proof. reflexivity. Qed.

Lemma string_length_app (s1 s2 : string) :
  String.length (s1 +:+ s2) = (String.length s1 + String.length s2)%nat.
Proof.
  induction s1 as [|a s1 IH]; [done|].
  rewrite string_app_cons. cbn. by rewrite IH.
Qed.

Lemma string_app_inj_suffix (s1 s2 t1 t2 : string) :
  s1 +:+ t1 = s2 +:+ t2 → String.length t1 = String.length t2 →
  s1 = s2 ∧ t1 = t2.
Proof.
  revert s2. induction s1 as [|a s1 IH]; intros [|b s2] Heq Hlen;
    rewrite ?string_app_cons in Heq.
  - by split.
  - apply (f_equal String.length) in Heq.
    rewrite !string_length_app in Heq. cbn in Heq.
    rewrite !string_length_app in Heq. lia.
  - apply (f_equal String.length) in Heq.
    rewrite !string_length_app in Heq. cbn in Heq.
    rewrite !string_length_app in Heq. lia.
  - injection Heq as -> Heq. destruct (IH s2 Heq Hlen) as [-> ->]. done.
Qed.

Lemma pretty_N_go_length (x : N) (s : string) :
  (String.length s ≤ String.length (pretty_N_go x s))%nat.
Proof.
  revert s. induction (N.lt_wf_0 x) as [x _ IH]; intros s.
  assert (x = 0 ∨ 0 < x)%N as [->|Hx] by lia; [by rewrite pretty_N_go_0|].
  rewrite pretty_N_go_step by done.
  etrans; [|by eapply IH, N.div_lt]. cbn. lia.
Qed.

Lemma pretty_N_go_lead (x : N) (s : string) :
  (0 < x)%N →
  ∃ d rest, pretty_N_go x s = String d rest ∧ d ≠ pretty_N_char 0.
Proof.
  revert s. induction (N.lt_wf_0 x) as [x _ IH]; intros s Hx.
  rewrite pretty_N_go_step by done.
  assert (x < 10 ∨ 10 ≤ x)%N as [Hlt|Hge] by lia.
  - rewrite N.div_small, pretty_N_go_0, N.mod_small by done.
    eexists _, _. split; [done|].
    assert (x = 1 ∨ x = 2 ∨ x = 3 ∨ x = 4 ∨ x = 5 ∨ x = 6
            ∨ x = 7 ∨ x = 8 ∨ x = 9)%N by lia; naive_solver.
  - apply IH; [by apply N.div_lt|]. apply N.div_str_pos. lia.
Qed.

(** A number below ten prints as one digit, a number from ten on as at
    least two characters that do not start with a zero. *)
Lemma pretty_one_digit (m : Z) :
  0 ≤ m < 10 → ∃ d, pretty m = String d "".
Proof.
  intros Hm.
  assert (m = 0 ∨ m = 1 ∨ m = 2 ∨ m = 3 ∨ m = 4 ∨ m = 5 ∨ m = 6
          ∨ m = 7 ∨ m = 8 ∨ m = 9) by lia.
  naive_solver.
Qed.

Lemma pretty_two_digits (m : Z) :
  10 ≤ m →
  ∃ d1 d2 rest, pretty m = String d1 (String d2 rest) ∧ d1 ≠ pretty_N_char 0.
Proof.
  intros Hm. destruct m as [|p|p]; try lia.
  change (pretty (Z.pos p)) with (pretty (N.pos p)).
  unfold pretty, pretty_N. rewrite decide_False by done.
  destruct (pretty_N_go_lead (N.pos p) "") as (d1 & rest & Heq & Hd1); [lia|].
  pose proof (pretty_N_go_length ((N.pos p `div` 10) `div` 10)
                (String (pretty_N_char ((N.pos p `div` 10) `mod` 10))
                        (String (pretty_N_char (N.pos p `mod` 10)) ""))) as Hlen.
  rewrite <- !pretty_N_go_step in Hlen
    by (try apply N.div_str_pos; lia).
  rewrite Heq in Hlen |- *. cbn in Hlen.
  destruct rest as [|d2 rest]; [cbn in Hlen; lia|]. by eauto.
Qed.

Lemma padStart_one_digit (d : Ascii.ascii) :
  padStart 2 (String d "") = String (pretty_N_char 0) (String d "").
Proof. reflexivity. Qed.

Lemma padStart_two_digits (d1 d2 : Ascii.ascii) (rest : string) :
  padStart 2 (String d1 (String d2 rest)) = String d1 (String d2 rest).
Proof. reflexivity. Qed.

(** The padded print of a non-negative number tells the number. *)
Lemma padStart_pretty_inj (m1 m2 : Z) :
  0 ≤ m1 → 0 ≤ m2 →
  padStart 2 (pretty m1) = padStart 2 (pretty m2) → m1 = m2.
Proof.
  intros H1 H2 Heq.
  destruct (decide (m1 < 10)) as [Hs1|Hb1], (decide (m2 < 10)) as [Hs2|Hb2].
  - destruct (pretty_one_digit m1) as [d1 Hd1]; [lia|].
    destruct (pretty_one_digit m2) as [d2 Hd2]; [lia|].
    rewrite Hd1, Hd2, !padStart_one_digit in Heq.
    apply (inj pretty). congruence.
  - destruct (pretty_one_digit m1) as [d1 Hd1]; [lia|].
    destruct (pretty_two_digits m2) as (e1 & e2 & rest & He & Hne); [lia|].
    rewrite Hd1, He, padStart_one_digit, padStart_two_digits in Heq. congruence.
  - destruct (pretty_two_digits m1) as (e1 & e2 & rest & He & Hne); [lia|].
    destruct (pretty_one_digit m2) as [d2 Hd2]; [lia|].
    rewrite Hd2, He, padStart_one_digit, padStart_two_digits in Heq. congruence.
  - destruct (pretty_two_digits m1) as (e1 & e2 & rest & He & Hne); [lia|].
    destruct (pretty_two_digits m2) as (f1 & f2 & rest' & Hf & Hne'); [lia|].
    rewrite He, Hf, !padStart_two_digits in Heq.
    apply (inj pretty). congruence.
Qed.

(** The seconds field has two characters. *)
Lemma padStart_seconds_length (s : Z) :
  0 ≤ s < 60 → String.length (padStart 2 (pretty s)) = 2%nat.
Proof.
  intros Hs.
  assert (Forall (λ s, String.length (padStart 2 (pretty s)) = 2%nat) (seqZ 0 60)) as Hall.
  { apply Forall_forall. intros x Hx. revert x Hx. apply Forall_forall.
    vm_compute. repeat constructor. }
  rewrite Forall_seqZ in Hall. apply Hall. lia.
Qed.

(** X21. [formatTime] shows two times alike exactly when they are the same
    time once negative values are clamped to zero; in particular it shows
    "00:00" for the non-positive times only. *)
Theorem formatTime_tells_the_time (a b : Z) :
  formatTime a = formatTime b ↔ Z.max 0 a = Z.max 0 b.
Proof.
  unfold formatTime. split; [|by intros ->].
  set (x := Z.max 0 a). set (y := Z.max 0 b).
  assert (0 ≤ x) by lia. assert (0 ≤ y) by lia. clearbody x y.
  intros Heq.
  apply string_app_inj_suffix in Heq as [Hm Hs].
  - apply padStart_pretty_inj in Hm; [|by apply Z.div_pos; lia..].
    apply String.app_inj in Hs.
    apply padStart_pretty_inj in Hs; [|by apply Z.mod_pos_bound; lia ..].
    rewrite (Z.div_mod x 60), (Z.div_mod y 60) by lia. lia.
  - rewrite !string_length_app.
    by rewrite !padStart_seconds_length by (apply Z.mod_pos_bound; lia).
Qed.

Lemma padStart_minutes_length (m : Z) :
  0 ≤ m →
  (2 ≤ String.length (padStart 2 (pretty m)))%nat ∧
  (m < 100 → String.length (padStart 2 (pretty m)) = 2%nat).
Proof.
  intros Hm. split.
  - destruct (decide (m < 10)).
    + destruct (pretty_one_digit m) as [d ->]; [lia|]. by rewrite padStart_one_digit.
    + destruct (pretty_two_digits m) as (d1 & d2 & rest & -> & _); [lia|].
      rewrite padStart_two_digits. cbn. lia.
  - intros Hlt.
    assert (Forall (λ s, String.length (padStart 2 (pretty s)) = 2%nat) (seqZ 0 100)) as Hall.
    { apply Forall_forall. intros x Hx. revert x Hx. apply Forall_forall.
      vm_compute. repeat constructor. }
    rewrite Forall_seqZ in Hall. apply Hall. lia.
Qed.

(** X22. [formatTime] always shows at least "mm:ss": five characters for
    every time below 100 minutes, never fewer, and "00:00" for a time
    that is zero or negative. *)
Theorem formatTime_shape (t : Z) :
  (5 ≤ String.length (formatTime t))%nat ∧
  (t < 6000 → String.length (formatTime t) = 5%nat) ∧
  (t ≤ 0 → formatTime t = "00:00").
Proof.
  unfold formatTime. set (x := Z.max 0 t).
  assert (0 ≤ x) as Hx by lia.
  destruct (padStart_minutes_length (x `div` 60)) as [Hmin Hmin2];
    [by apply Z.div_pos; lia|].
  pose proof (padStart_seconds_length (x `mod` 60)) as Hsec.
  rewrite !string_length_app, Hsec by (apply Z.mod_pos_bound; lia).
  split_and!.
  - cbn. lia.
  - intros Ht. rewrite Hmin2; [done|].
    apply Z.div_lt_upper_bound; lia.
  - intros Ht. subst x. by rewrite Z.max_l by lia.
Qed.

(** ** The page never comes to a dead end *)

Section Liveness.

Context (env : Env).

Lemma live_exercise (idx : nat) (ex : Exercise) :
  workout_live env → exerciseByIndex env idx = Some ex →
  0 < setCount ex ∧ 0 < restSeconds ex.
Proof. intros Hv Hex. by eapply (Forall_lookup_1 _ _ _ _ Hv). Qed.

Lemma workout_live_valid : workout_live env → workout_valid env.
Proof.
  intros Hv. eapply Forall_impl; [exact Hv|].
  intros ex [? ?]. cbn. split; lia.
Qed.

Lemma handler_circuit_screen (ev : Event) (w : World) :
  (screen (state w) = circuit → allExercisesComplete env (state w) = false) →
  screen (state (exec (handler env ev) w)) = circuit →
  allExercisesComplete env (state (exec (handler env ev) w)) = false.
Proof.
  intros Hc.
  destruct ev; js_run; intros Hscreen; try discriminate Hscreen.
  all: first [assumption | exact (Hc Hscreen)].
Qed.

Ltac solve_page_live :=
  split;
  first [ by eauto
        | by intros [? [=]]
        | by intros [[=]|[=]]
        | intros; lia
        | match goal with
          | H : is_Some _ → _ |- _ => intros; specialize (H ltac:(eauto)); lia
          end ].

Lemma handler_page_live (ev : Event) (w : World) :
  workout_live env →
  offers env w ev = true →
  timers_owned w →
  selection_sound env (state w) →
  rest_bounded env (state w) →
  page_consistent (state w) →
  page_live (state w) →
  page_live (state (exec (handler env ev) w)).
Proof.
  unfold page_live, page_consistent.
  intros Hv Hoff%offers_inv Hown Hs Hb [Hc1 Hc2] [H1 H2].
  destruct ev.
  - clear Hown Hs Hb. js_run; solve_page_live.
  - destruct Hoff as (Hscr & _).
    assert (selectedExercise (state w) = None) as Hnone.
    { destruct Hscr as [Hc|[Hscr Hmiss]]; [by apply Hc2; right; left|].
      destruct (H2 Hscr) as [idx Hidx].
      destruct (sound_selection_is_locked env (state w) idx Hs Hidx) as (ex' & _ & Hex' & _).
      by rewrite (Hmiss idx Hidx) in Hex'. }
    assert (restRemaining (state w) = 0) as Hzero
      by (unfold rest_bounded in Hb; by rewrite Hnone in Hb).
    assert (restTimerId (state w) = None) as Htimer.
    { destruct (restTimerId (state w)) eqn:Hid; [|done].
      assert (0 < restRemaining (state w)) by (apply H1; eauto). lia. }
    clear Hb Hs Hown.
    js_unfold; subst; repeat first [js_rewards | js_branch].
    all: split; [by intros [? [=]]|eauto].
  - destruct Hoff as (Hscr & idx & ex & Hsel & Hex).
    destruct (live_exercise idx ex Hv Hex) as [_ Hrest].
    clear Hown Hs Hb.
    js_run; simplify_eq; solve_page_live.
  - destruct Hoff as (Hscr & idx & ex & Hsel & Hex).
    destruct (live_exercise idx ex Hv Hex) as [_ Hrest].
    clear Hown Hs Hb.
    js_run; js_decided; simplify_eq; solve_page_live.
  - clear Hown Hs Hb. js_run; solve_page_live.
  - assert (is_Some (selectedExercise (state w))) as [idx Hidx].
    { unfold timers_owned in Hown. unfold rest_bounded in Hb.
      destruct (restTimerId (state w)) eqn:Hid;
        [|rewrite Hown in Hoff; set_solver].
      assert (0 < restRemaining (state w)) by (apply H1; eauto).
      destruct (selectedExercise (state w)); [eauto|lia]. }
    clear Hown Hs Hb.
    js_run; js_decided; simplify_eq; solve_page_live.
Qed.

Lemma reachable_on_page_live (w : World) :
  workout_live env → reachable_on_page env w → page_live (state w).
Proof.
  intros Hv Hpage. induction Hpage as [|w ev Hpage IH Hoff].
  - split; [by intros [? [=]]|by intros [[=]|[=]]].
  - pose proof (reachable_on_page_reachable env w Hpage) as Hreach.
    apply handler_page_live; try done.
    + by apply (reachable_timers_owned env).
    + by apply (reachable_selection_sound env).
    + by apply (reachable_rest_bounded env); [apply workout_live_valid|].
    + by apply (reachable_on_page_consistent env).
Qed.

Lemma reachable_circuit_screen (w : World) :
  reachable env w →
  screen (state w) = circuit → allExercisesComplete env (state w) = false.
Proof.
  induction 1 as [|w w' Hw IH Hstep]; [by intros [=]|].
  destruct Hstep. by apply handler_circuit_screen.
Qed.

Lemma allExercisesComplete_open (s : State) :
  allExercisesComplete env s = false →
  ∃ i ex, exercises env !! i = Some ex ∧
          ge_undef (completedSets s !! i) (setCount ex) = false.
Proof.
  unfold allExercisesComplete. intros Hall.
  apply Is_true_false in Hall. rewrite forallb_True in Hall.
  apply not_Forall_Exists in Hall; [|apply _].
  apply Exists_exists in Hall as ([i ex] & Hin & Hopen).
  apply list_elem_of_lookup in Hin as [j Hj].
  rewrite list_lookup_imap in Hj.
  destruct (exercises env !! j) as [ex'|] eqn:Hex; [|done].
  cbn in Hj. injection Hj as <- <-. cbn in Hopen.
  exists j, ex'. split; [done|]. by apply Is_true_false.
Qed.

Lemma renderCircuit_open_tile (s : State) (i : nat) (ex : Exercise) :
  exercises env !! i = Some ex →
  ge_undef (completedSets s !! i) (setCount ex) = false →
  lockedExerciseIndex env s = None →
  ∃ tiles, renderCircuit env s = CircuitPage tiles ∧
    existsb (λ t, bool_decide (tile_index t = i) && negb (tile_disabled t)) tiles = true.
Proof.
  intros Hex Hopen Hlock. unfold renderCircuit. rewrite Hlock.
  eexists. split; [reflexivity|].
  apply Is_true_true, existb_True, Exists_exists.
  exists {| tile_index := i; tile_disabled := false |}. split.
  - apply list_elem_of_lookup. exists i.
    rewrite list_lookup_imap, Hex. cbn. by rewrite Hopen.
  - cbn. by rewrite bool_decide_eq_true_2.
Qed.


Lemma browse_reachable (evs : list Event) (w w' : World) :
  reachable_on_page env w → browse env evs w = Some w' →
  reachable_on_page env w'.
Proof.
  revert w. induction evs as [|ev evs IH]; intros w Hw; cbn.
  - by intros [= <-].
  - destruct (offers env w ev) eqn:Hoff; [|done].
    apply IH. by apply on_page_step.
Qed.

End Liveness.

(** Without rest the page does come to a dead end: after the late
    countdown the screen is [input] with nothing selected, which renders
    the circuit with its only tile disabled, and no countdown is left. *)
Lemma page_dead_end_without_rest :
  reachable_on_page one_set_env after_late_countdown ∧
  screen (state after_late_countdown) = input ∧
  ∀ ev, offers one_set_env after_late_countdown ev = false.
Proof.
  split_and!.
  - apply (browse_reachable one_set_env late_countdown (initial_world one_set_env));
      [apply on_page_initial|].
    vm_compute. reflexivity.
  - vm_compute. reflexivity.
  - assert (intervals after_late_countdown = ∅) as Hnone by (vm_compute; reflexivity).
    assert (renderScreen one_set_env (state after_late_countdown) =
            CircuitPage [ {| tile_index := 0; tile_disabled := true |} ]) as Hpage
      by (vm_compute; reflexivity).
    intros [| index | | | |id]; unfold offers; rewrite ?Hpage;
      [reflexivity | cbn; by rewrite andb_false_r | reflexivity.. | ].
    rewrite Hnone. apply bool_decide_eq_false_2, not_elem_of_empty.
Qed.


(** ** The session clock *)

Section Clock.

Context (env : Env).

Lemma formatTime_nonpos (t : Z) : t ≤ 0 → formatTime t = "00:00".
Proof. intros Ht. unfold formatTime. by rewrite Z.max_l by lia. Qed.

Lemma handler_clock (ev : Event) (w : World) :
  offers env w ev = true →
  (screen (state w) = main → intervals w = ∅) →
  (screen (state w) = main ↔ startedAt (state w) = None) →
  screen (state (exec (handler env ev) w)) = main ↔
  startedAt (state (exec (handler env ev) w)) = None.
Proof.
  intros Hoff%offers_inv Hmain Hclock.
  assert (screen (state w) ≠ main → ∃ t, startedAt (state w) = Some t) as Hsome.
  { intros Hne. destruct (startedAt (state w)) as [t|]; [by eauto|].
    by destruct Hne; apply Hclock. }
  destruct ev.
  - assert (startedAt (state w) = None) as Hnone by by apply Hclock.
    clear Hmain Hclock Hsome.
    js_unfold; subst; cbn; repeat js_branch; by split.
  - assert (screen (state w) ≠ main) as Hne
      by (destruct Hoff as ([Hscr|[[Hscr|Hscr] _]] & _); by rewrite Hscr).
    destruct (Hsome Hne) as [t Ht].
    clear Hmain Hclock Hsome Hoff. js_run; (split; intros ?; congruence).
  - assert (screen (state w) ≠ main) as Hne
      by (destruct Hoff as (Hscr & _); by rewrite Hscr).
    destruct (Hsome Hne) as [t Ht].
    clear Hmain Hclock Hsome Hoff. js_run; (split; intros ?; congruence).
  - assert (screen (state w) ≠ main) as Hne
      by (destruct Hoff as (Hscr & _); by rewrite Hscr).
    destruct (Hsome Hne) as [t Ht].
    clear Hmain Hclock Hsome Hoff. js_run; (split; intros ?; congruence).
  - clear Hmain Hclock Hsome. js_run; by split.
  - assert (screen (state w) ≠ main) as Hne.
    { intros Hscr. rewrite (Hmain Hscr) in Hoff. by apply not_elem_of_empty in Hoff. }
    destruct (Hsome Hne) as [t Ht].
    clear Hmain Hclock Hsome. js_run; (split; intros ?; congruence).
Qed.

Lemma reachable_on_page_clock (w : World) :
  reachable_on_page env w →
  screen (state w) = main ↔ startedAt (state w) = None.
Proof.
  induction 1 as [|w ev Hpage IH Hoff]; [done|].
  apply handler_clock; [done| |done].
  intros Hmain.
  pose proof (reachable_on_page_reachable env w Hpage) as Hreach.
  pose proof (reachable_timers_owned env w Hreach) as Hown.
  unfold timers_owned in Hown.
  by rewrite Hown, (reachable_main_pristine env w Hreach Hmain).
Qed.

(** X24. On the page the session clock runs exactly while the screen is
    not [main]: [startedAt] is set by the press on start and cleared only
    by a restart.  The footer [formatTime(elapsedSeconds())] reads "00:00"
    on the main screen, whatever the time is, and until the first whole
    second after the start, also when the system clock steps back. *)
Theorem session_clock (w : World) :
  reachable_on_page env w →
  (screen (state w) = main ↔ startedAt (state w) = None) ∧
  ∀ now,
    (screen (state w) = main ∨
     ∃ t, startedAt (state w) = Some t ∧ now < t + 1000) →
    formatTime (elapsedSeconds now (state w)) = "00:00".
Proof.
  intros Hpage.
  pose proof (reachable_on_page_clock w Hpage) as Hclock.
  split; [done|]. intros now Hnow.
  apply formatTime_nonpos. unfold elapsedSeconds.
  destruct Hnow as [Hmain|(t & Ht & Hlt)].
  - apply Hclock in Hmain. by rewrite Hmain.
  - rewrite Ht. destruct (truthy_time (Some t)); cbn; [|done].
    assert ((now - t) `div` 1000 < 1); [|lia].
    apply Z.div_lt_upper_bound; lia.
Qed.

End Clock.

Lemma session_clock_witness :
  (screen (state first_set_on_rest) = main ↔
   startedAt (state first_set_on_rest) = None) ∧
  ∀ now,
    (screen (state first_set_on_rest) = main ∨
     ∃ t, startedAt (state first_set_on_rest) = Some t ∧ now < t + 1000) →
    formatTime (elapsedSeconds now (state first_set_on_rest)) = "00:00".
Proof.
  apply (session_clock default_env).
  apply (browse_reachable default_env first_set_resting (initial_world default_env));
    [apply on_page_initial|].
  vm_compute. reflexivity.
Defined.

(** ** The workout of the v2 copy *)


(** ** The properties above on the example pages *)

Lemma lat_pulldown : exerciseByIndex default_env 0 = Some
  {| name := "Lat Pulldown"; targetReps := 10; setCount := 4;
     defaultWeight := 90; restSeconds := 3 |}.
Proof. reflexivity. Qed.

Lemma default_workout_valid : workout_valid default_env.
Proof. repeat constructor; cbn; lia. Qed.

Lemma selected_exercise_is_locked_witness :
  ∃ ex c,
    exerciseByIndex default_env 0 = Some ex ∧
    completedSets (state first_set_done) !! 0%nat = Some c ∧
    c < setCount ex ∧
    lockedExerciseIndex default_env (state first_set_done) = Some 0%nat.
Proof.
  apply (selected_exercise_is_locked default_env first_set_done 0).
  - apply scenario_reachable.
  - vm_compute. reflexivity.
Defined.

Lemma lock_blocks_other_exercises_witness :
  let w' := exec (chooseExercise default_env 1) first_set_done in
  state w' = state first_set_done ∧
  intervals w' = intervals first_set_done ∧
  toasts w' = toasts first_set_done ++ ["Finish Lat Pulldown first"].
Proof.
  apply (lock_blocks_other_exercises default_env first_set_done 0 1
           {| name := "Lat Pulldown"; targetReps := 10; setCount := 4;
              defaultWeight := 90; restSeconds := 3 |}).
  - apply scenario_reachable.
  - vm_compute. reflexivity.
  - reflexivity.
  - lia.
Defined.

Lemma chooseExercise_rejects_invalid_witness :
  let w := initial_world default_env in
  let w' := exec (chooseExercise default_env 7) w in
  state w' = state w ∧
  intervals w' = intervals w ∧
  (exerciseByIndex default_env 7 = None →
   lockedExerciseIndex default_env (state w) = None → w' = w).
Proof.
  apply (chooseExercise_rejects_invalid default_env (initial_world default_env) 7).
  left. reflexivity.
Defined.

Lemma chooseExercise_accepts_witness :
  let w := initial_world default_env in
  let w' := exec (chooseExercise default_env 0) w in
  selectedExercise (state w') = Some 0%nat ∧
  currentInput (state w') = {| reps := "10"; weight := "90" |} ∧
  intervals w' = intervals w ∧
  toasts w' = toasts w.
Proof.
  destruct (chooseExercise_accepts default_env (initial_world default_env) 0
              {| name := "Lat Pulldown"; targetReps := 10; setCount := 4;
                 defaultWeight := 90; restSeconds := 3 |})
    as (Hstate & Hint & Htoast).
  - reflexivity.
  - reflexivity.
  - left. reflexivity.
  - cbn zeta. rewrite Hstate. split_and!; [reflexivity|reflexivity|exact Hint|exact Htoast].
Defined.

Lemma at_most_one_countdown_witness :
  1%positive ∈ intervals result_form_open ↔
  restTimerId (state result_form_open) = Some 1%positive.
Proof.
  apply (at_most_one_countdown default_env result_form_open 1%positive).
  apply scenario_reachable.
Defined.


Lemma first_set_on_rest_reachable : reachable_on_page default_env first_set_on_rest.
Proof.
  apply (browse_reachable default_env first_set_resting (initial_world default_env));
    [apply on_page_initial|].
  vm_compute. reflexivity.
Qed.


Lemma restRemaining_within_rest_witness :
  0 ≤ restRemaining (state result_form_open) ∧
  match selectedExercise (state result_form_open) with
  | Some idx => ∃ ex, exerciseByIndex default_env idx = Some ex ∧
                      restRemaining (state result_form_open) ≤ restSeconds ex
  | None => restRemaining (state result_form_open) = 0
  end.
Proof.
  apply (restRemaining_within_rest default_env result_form_open).
  - apply default_workout_valid.
  - apply scenario_reachable.
Defined.

Lemma countdown_runs_to_zero_witness :
  Nat.iter 2 (exec (restTick default_env)) result_form_open =
    set_state (set_restRemaining 1 (state result_form_open)) result_form_open ∧
  Nat.iter 3 (exec (restTick default_env)) result_form_open =
    exec (onRestTimerFinished default_env)
         (set_state (set_restRemaining 0 (state result_form_open)) result_form_open).
Proof.
  apply (countdown_runs_to_zero default_env 2 result_form_open).
  vm_compute. reflexivity.
Defined.

Lemma last_firing_stops_the_countdown_witness :
  let w := Nat.iter 2 (exec (restTick default_env)) result_form_open in
  let w' := exec (restTick default_env) w in
  restTimerId (state w') = None ∧
  intervals w' = match restTimerId (state w) with
                 | Some id => intervals w ∖ {[ id ]}
                 | None => intervals w
                 end.
Proof.
  apply (last_firing_stops_the_countdown default_env
           (Nat.iter 2 (exec (restTick default_env)) result_form_open)).
  vm_compute. discriminate.
Defined.


Lemma one_set_nonneg : setCounts_nonneg one_set_env.
Proof. repeat constructor; cbn; lia. Qed.

Lemma complete_screen_means_all_done_witness :
  let w := default (initial_world one_set_env)
             (run one_set_env one_set_session (initial_world one_set_env)) in
  completedSets (state w) !! 0%nat = Some 1 ∧
  selectedExercise (state w) = None.
Proof.
  apply (complete_screen_means_all_done one_set_env _ 0
           {| name := "Plank"; targetReps := 1; setCount := 1;
              defaultWeight := 0; restSeconds := 0 |}).
  - apply one_set_nonneg.
  - apply scenario_reachable.
  - vm_compute. reflexivity.
  - reflexivity.
Defined.

Lemma complete_log_is_full_witness :
  let w := foldl (λ w ev, exec (handler one_set_env ev) w) (initial_world one_set_env)
                 one_set_session in
  ∃ es, entries (state w) !! 0%nat = Some es ∧ Z.of_nat (length es) = 1.
Proof.
  apply (complete_log_is_full one_set_env _ 0
           {| name := "Plank"; targetReps := 1; setCount := 1;
              defaultWeight := 0; restSeconds := 0 |}).
  - apply one_set_nonneg.
  - unfold one_set_session. cbn [foldl].
    repeat (apply orderly_step; [|vm_compute; reflexivity|vm_compute; reflexivity]).
    apply orderly_initial.
  - vm_compute. reflexivity.
  - reflexivity.
Defined.

Lemma objectiveText_names_the_open_set_witness :
  (∀ s, is_Some (objectiveText default_env "Session complete." s)) ∧
  objectiveText default_env "Session complete." (state first_set_done)
  = Some ("Lat Pulldown" +:+ ": Set " +:+ pretty (1 + 1) +:+ " of " +:+ pretty 4) ∧
  1 + 1 ≤ 4.
Proof.
  apply (objectiveText_names_the_open_set default_env "Session complete."
           first_set_done 0
           {| name := "Lat Pulldown"; targetReps := 10; setCount := 4;
              defaultWeight := 90; restSeconds := 3 |} 1).
  - apply scenario_reachable.
  - vm_compute. reflexivity.
  - reflexivity.
  - vm_compute. reflexivity.
Defined.

Lemma rank_holds_the_session_points_witness :
  100 * rank (state first_set_done) + rankXp (state first_set_done)
  = 100 * initial_rank default_env + initial_rankXp default_env
    + sessionPoints (state first_set_done) ∧
  streak (state first_set_done) = initial_streak default_env.
Proof.
  apply (rank_holds_the_session_points default_env first_set_done).
  apply scenario_reachable.
Defined.

Lemma rankXp_stays_in_range_witness :
  0 ≤ rankXp (state first_set_done) < 100.
Proof.
  apply (rankXp_stays_in_range default_env first_set_done).
  - cbn. lia.
  - cbn. lia.
  - cbn. lia.
  - apply scenario_reachable.
Defined.

Lemma points_are_what_was_earned_witness :
  sessionPoints (state first_set_done)
  = setPoints (rewards default_env) * total_entries (state first_set_done)
    + exercisePoints (rewards default_env)
      * finished_exercises default_env (state first_set_done) ∧
  currency (state first_set_done)
  = initial_currency default_env
    + setCurrency (rewards default_env) * total_entries (state first_set_done)
    + exerciseCurrency (rewards default_env)
      * finished_exercises default_env (state first_set_done).
Proof.
  apply (points_are_what_was_earned default_env first_set_done).
  - apply default_workout_valid.
  - apply scenario_reachable.
Defined.

Lemma page_entries_follow_completedSets_witness :
  ∃ es c,
    entries (state first_set_on_rest) !! 0%nat = Some es ∧
    completedSets (state first_set_on_rest) !! 0%nat = Some c ∧
    Z.of_nat (length es) = c + (if submitted_here (state first_set_on_rest) 0 then 1 else 0) ∧
    Z.of_nat (length es) ≤ 4.
Proof.
  apply (page_entries_follow_completedSets default_env first_set_on_rest 0
           {| name := "Lat Pulldown"; targetReps := 10; setCount := 4;
              defaultWeight := 90; restSeconds := 3 |}).
  - repeat constructor; cbn; lia.
  - apply first_set_on_rest_reachable.
  - reflexivity.
Defined.

Lemma page_choice_always_selects_witness :
  let w := exec (handler default_env (StartWorkout 1700000000000))
                (initial_world default_env) in
  selectedExercise (state w) = None ∧
  selectedExercise (state (exec (chooseExercise default_env 0) w)) = Some 0%nat ∧
  screen (state (exec (chooseExercise default_env 0) w)) = progress.
Proof.
  apply (page_choice_always_selects default_env
           (exec (handler default_env (StartWorkout 1700000000000))
                 (initial_world default_env)) 0).
  - apply on_page_step; [apply on_page_initial|]. vm_compute. reflexivity.
  - vm_compute. reflexivity.
Defined.

Lemma page_submission_is_recorded_witness :
  inputSubmitted (state result_form_open) = false ∧
  ∃ idx es c,
    selectedExercise (state result_form_open) = Some idx ∧
    entries (state result_form_open) !! idx = Some es ∧
    completedSets (state result_form_open) !! idx = Some c ∧
    entries (state (exec (submitSet default_env (of_Z 10) (of_Z 90) "10:00:00")
                         result_form_open)) !! idx
    = Some (es ++ [entry (Some (c + 1)) (of_Z 10) (of_Z 90) "10:00:00"]).
Proof.
  apply (page_submission_is_recorded default_env result_form_open
           (of_Z 10) (of_Z 90) "10:00:00").
  - apply (browse_reachable default_env
             [StartWorkout 1700000000000; SelectExercise 0%nat; EnterResult]
             (initial_world default_env)); [apply on_page_initial|].
    vm_compute. reflexivity.
  - vm_compute. reflexivity.
  - reflexivity.
Defined.
